(** * aggregate_md: a shallow embedding of [src/aggregate_md.py]

    The script walks a directory tree, collects the Markdown files, groups
    them by containing directory and writes one document in which every file's
    headings are pushed three levels down.

    Python strings are sequences of Unicode code points; they are modelled as
    lists of code points ([N]), so that [re]'s [\s], [str.lower] and string
    comparison can be written on the code points themselves.

    The world the script runs in is explicit: the working directory of the
    process, the directory tree below the directory that is scanned, and a
    function that says what reading a path gives.  What the script does to
    that world is a trace of writes to the output file and reads of the
    candidates; the document is what the writes add up to.  The output file
    is opened as UTF-8 text, so a write of a string with a lone surrogate (a
    file name that is not UTF-8 comes out of [os.walk] with one) raises
    [UnicodeEncodeError]: inside the [try] the handler gets it, elsewhere
    it ends the run.

    The library functions the script calls ([re.sub], [re.search],
    [os.walk], [os.path.join], [abspath], [relpath], [dirname], [basename],
    [str.lower], [list.sort]) are written out after their POSIX
    implementation in CPython, on the inputs the script gives them. *)

From Stdlib Require Import Strings.String Strings.Ascii.
From Stdlib Require Import List NArith ZArith Bool Lia Arith.
From Stdlib Require Import Sorting.Permutation Sorting.Sorted.
From Stdlib Require DecimalString HexadecimalString.
Import ListNotations.

(* ================================================================== *)
(** ** Text *)

Module Text.

Definition char := N.
Definition str := list char.

(** A string literal of the source, as code points. *)
Definition lit (s : string) : str :=
  map N_of_ascii (list_ascii_of_string s).
Arguments lit s%_string.

Definition NL : char := 10%N.
Definition HASH : char := 35%N.
Definition SLASH : char := 47%N.
Definition DOT : char := 46%N.

Definition char_eqb (a b : char) : bool := N.eqb a b.

Fixpoint str_eqb (a b : str) : bool :=
  match a, b with
  | [], [] => true
  | x :: a', y :: b' => char_eqb x y && str_eqb a' b'
  | _, _ => false
  end.

(** Python's [a <= b] on [str]: lexicographic on code points. *)
Fixpoint str_leb (a b : str) : bool :=
  match a, b with
  | [], _ => true
  | _ :: _, [] => false
  | x :: a', y :: b' =>
      if N.ltb x y then true
      else if N.ltb y x then false
      else str_leb a' b'
  end.

(** [x in l] for a list of strings. *)
Definition mem (x : str) (l : list str) : bool := existsb (str_eqb x) l.

(** [s.startswith(p)] and [s.endswith(p)]. *)
Fixpoint startswith (s p : str) {struct p} : bool :=
  match p, s with
  | [], _ => true
  | _ :: _, [] => false
  | y :: p', x :: s' => char_eqb x y && startswith s' p'
  end.

Definition endswith (s p : str) : bool := startswith (rev s) (rev p).

(** [s.split(sep)] for a one-character separator: always at least one
    field. *)
Fixpoint str_split (sep : char) (s : str) : list str :=
  match s with
  | [] => [[]]
  | c :: s' =>
      if char_eqb c sep then [] :: str_split sep s'
      else match str_split sep s' with
           | [] => [[c]]
           | f :: fs => (c :: f) :: fs
           end
  end.

(** [sep.join(l)]. *)
Fixpoint str_join (sep : str) (l : list str) : str :=
  match l with
  | [] => []
  | [x] => x
  | x :: l' => x ++ sep ++ str_join sep l'
  end.

(** [s.replace(a, b)] for a one-character [a]. *)
Definition replace (a : char) (b : str) (s : str) : str :=
  flat_map (fun c => if char_eqb c a then b else [c]) s.

(** [s.lstrip(c)] and [s.rstrip(c)] for a one-character set. *)
Fixpoint lstrip (c : char) (s : str) : str :=
  match s with
  | x :: s' => if char_eqb x c then lstrip c s' else s
  | [] => []
  end.

Definition rstrip (c : char) (s : str) : str := rev (lstrip c (rev s)).

(** Unicode white space, as [str.isspace] and the [\s] of a [str] pattern
    have it. *)
Definition is_space (c : char) : bool :=
  ((9 <=? c) && (c <=? 13) || (28 <=? c) && (c <=? 32)
   || (c =? 133) || (c =? 160) || (c =? 5760)
   || (8192 <=? c) && (c <=? 8202)
   || (c =? 8232) || (c =? 8233) || (c =? 8239) || (c =? 8287)
   || (c =? 12288))%N.

(** [str.lower], on the ASCII letters.  No other code point lowers to one of
    the characters [.], [m], [d] that the script looks for. *)
Definition lower_char (c : char) : char :=
  if ((65 <=? c) && (c <=? 90))%N then (c + 32)%N else c.

Definition lower (s : str) : str := map lower_char s.

End Text.
Import Text.

(* ================================================================== *)
(** ** The fragment of [re] the script uses *)

Module Re.

(** Patterns: [^] and [$] under [re.MULTILINE], a greedy [c+] over a
    character class, concatenation, and a capturing group. *)
Inductive regex :=
| Bol
| Eol
| Plus (p : char -> bool)
| Cat (r1 r2 : regex)
| Grp (r : regex).

(** The matcher's position: the character before it (none at the start of
    the subject), what is left of the subject, and the groups closed so
    far. *)
Record mstate := MState {
  prev : option char;
  rest : str;
  caps : list str
}.

Definition at_bol (st : mstate) : bool :=
  match prev st with
  | None => true
  | Some c => char_eqb c NL
  end.

Definition at_eol (st : mstate) : bool :=
  match rest st with
  | [] => true
  | c :: _ => char_eqb c NL
  end.

Section Exec.
Variable R : Type.

(** Greedy one-or-more with backtracking: take one more character first,
    and only when everything after that fails, stop here. *)
Fixpoint plus_loop (p : char -> bool) (k : option char -> str -> option R)
         (pv : option char) (s : str) : option R :=
  match s with
  | c :: s' =>
      if p c then
        match plus_loop p k (Some c) s' with
        | Some r => Some r
        | None => k (Some c) s'
        end
      else None
  | [] => None
  end.

Fixpoint exec (r : regex) (st : mstate) (k : mstate -> option R) : option R :=
  match r with
  | Bol => if at_bol st then k st else None
  | Eol => if at_eol st then k st else None
  | Plus p =>
      plus_loop p (fun pv s => k (MState pv s (caps st))) (prev st) (rest st)
  | Cat r1 r2 => exec r1 st (fun st1 => exec r2 st1 k)
  | Grp r1 =>
      exec r1 st (fun st1 =>
        let n := length (rest st) - length (rest st1) in
        k (MState (prev st1) (rest st1) (caps st1 ++ [firstn n (rest st)])))
  end.
End Exec.
Arguments plus_loop {R} p k pv s.
Arguments exec {R} r st k.

(** One attempt to match [r] at the current position. *)
Definition match_at (r : regex) (pv : option char) (s : str) : option mstate :=
  exec r (MState pv s []) (fun st => Some st).

(** [m.group(i)], for [i >= 1]. *)
Definition group (i : nat) (gs : list str) : str := nth (i - 1) gs [].

(** [re.sub(r, repl, s)]: scan left to right; where [r] matches, write the
    replacement and go on after the match; elsewhere copy one character.
    After an empty match the next character is copied; the patterns of the
    script never match the empty string.  [fuel] bounds the number of steps;
    [length s + 1] is enough (lemma [sub_from_fuel]). *)
Fixpoint sub_from (fuel : nat) (r : regex) (repl : list str -> str)
         (pv : option char) (s : str) : str :=
  match fuel with
  | O => s
  | S fuel' =>
      let copy :=
        match s with
        | [] => []
        | c :: s' => c :: sub_from fuel' r repl (Some c) s'
        end in
      match match_at r pv s with
      | Some st =>
          if length s - length (rest st) =? 0
          then repl (caps st) ++ copy
          else repl (caps st) ++ sub_from fuel' r repl (prev st) (rest st)
      | None => copy
      end
  end.

Definition sub_at (r : regex) (repl : list str -> str)
           (pv : option char) (s : str) : str :=
  sub_from (S (length s)) r repl pv s.

Definition sub (r : regex) (repl : list str -> str) (s : str) : str :=
  sub_at r repl None s.

(** [re.search(r, s)]: the groups of the leftmost match. *)
Fixpoint search_from (r : regex) (pv : option char) (s : str)
  : option (list str) :=
  match match_at r pv s with
  | Some st => Some (caps st)
  | None =>
      match s with
      | [] => None
      | c :: s' => search_from r (Some c) s'
      end
  end.

Definition search (r : regex) (s : str) : option (list str) :=
  search_from r None s.

End Re.
Import Re.

(* ================================================================== *)
(** ** Headings *)

Definition is_hash (c : char) : bool := char_eqb c HASH.
Definition not_nl (c : char) : bool := negb (char_eqb c NL).

(** [r'^(#+)\s+'] *)
Definition level_re : regex :=
  Cat Bol (Cat (Grp (Plus is_hash)) (Plus is_space)).

(** [r'^(#+)(\s+.+)$'] *)
Definition heading_re : regex :=
  Cat Bol
    (Cat (Grp (Plus is_hash))
      (Cat (Grp (Cat (Plus is_space) (Plus not_nl)))
           Eol)).

Definition get_heading_level (content : str) : nat :=
  match search level_re content with
  | Some m => length (group 1 m)
  | None => 0
  end.

Definition increase_heading (level_increase : Z) (m : list str) : str :=
  repeat HASH (Z.to_nat (Z.of_nat (length (group 1 m)) + level_increase))
  ++ group 2 m.

Definition adjust_headings (content : str) (level_increase : Z) : str :=
  if (level_increase <=? 0)%Z then content
  else sub heading_re (increase_heading level_increase) content.

(* ================================================================== *)
(** ** [os.path] on POSIX *)

Module Path.

Definition sep : str := [SLASH].
Definition curdir : str := [DOT].
Definition pardir : str := [DOT; DOT].

Definition is_nil {A : Type} (l : list A) : bool :=
  match l with [] => true | _ => false end.

Definition isabs (p : str) : bool := startswith p sep.

(** [os.path.join(a, b)] *)
Definition join (a b : str) : str :=
  if startswith b sep then b
  else if is_nil a || endswith a sep then a ++ b
  else a ++ sep ++ b.

Definition initial_slashes (path : str) : nat :=
  if startswith path sep then
    if startswith path (sep ++ sep) && negb (startswith path (sep ++ sep ++ sep))
    then 2 else 1
  else 0.

(** One turn of [normpath]'s loop over the components. *)
Definition norm_step (slashes : nat) (new_comps : list str) (comp : str)
  : list str :=
  if str_eqb comp [] || str_eqb comp curdir then new_comps
  else if negb (str_eqb comp pardir)
          || ((slashes =? 0) && is_nil new_comps)
          || (negb (is_nil new_comps) && str_eqb (last new_comps []) pardir)
  then new_comps ++ [comp]
  else removelast new_comps.

Definition normpath (path : str) : str :=
  if is_nil path then curdir
  else
    let slashes := initial_slashes path in
    let comps := fold_left (norm_step slashes) (str_split SLASH path) [] in
    let path' := repeat SLASH slashes ++ str_join sep comps in
    if is_nil path' then curdir else path'.

(** [os.path.abspath(path)] in a process whose working directory is
    [cwd]. *)
Definition abspath (cwd path : str) : str :=
  normpath (if isabs path then path else join cwd path).

(** [p.rfind(c) + 1]: the position just after the last [c], or 0. *)
Fixpoint rfind1 (c : char) (p : str) : nat :=
  match p with
  | [] => 0
  | x :: p' =>
      match rfind1 c p' with
      | 0 => if char_eqb x c then 1 else 0
      | S n => S (S n)
      end
  end.

Definition dirname (p : str) : str :=
  let i := rfind1 SLASH p in
  let head := firstn i p in
  if negb (is_nil head) && negb (str_eqb head (repeat SLASH (length head)))
  then rstrip SLASH head
  else head.

Definition basename (p : str) : str := skipn (rfind1 SLASH p) p.

(** [len(commonprefix([a, b]))] on lists of components. *)
Fixpoint common_prefix_len (a b : list str) : nat :=
  match a, b with
  | x :: a', y :: b' => if str_eqb x y then S (common_prefix_len a' b') else 0
  | _, _ => 0
  end.

Definition tail_list (abs : str) : list str :=
  let tail := lstrip SLASH abs in
  if is_nil tail then [] else str_split SLASH tail.

(** [os.path.relpath(path, start)] *)
Definition relpath (cwd path start : str) : str :=
  let start_list := tail_list (abspath cwd start) in
  let path_list := tail_list (abspath cwd path) in
  let i := common_prefix_len start_list path_list in
  let rel_list := repeat pardir (length start_list - i) ++ skipn i path_list in
  if is_nil rel_list then curdir else str_join sep rel_list.

End Path.

(* ================================================================== *)
(** ** The file system *)

(** What [open(p, 'r', encoding='utf-8')] and [read()] do: they give the
    text of the file or raise an exception [e], of which the script keeps
    [str(e)].  The output file itself can be opened for writing. *)
Inductive read_result :=
| Content (text : str)
| Raises (message : str).

(** A directory as [os.scandir] lists it: the names of the entries that are
    not directories, and the sub-directories, both in the order of the
    listing.  Every sub-directory can be listed, and none is a symbolic
    link, so [os.walk] enters each one that is left in [dirs]. *)
#[warnings="-register-all"]
Inductive tree :=
| Dir (files : list str) (dirs : list (str * tree)).

Module Os.

(** [os.walk(top)], top-down.  Each step yields [(root, dirs, files)]; the
    consumer may shrink [dirs] in place before the generator goes on, and the
    generator then descends into what is left.  [prune root dirs] is what the
    consumer leaves; the yielded triple is recorded with the list it left.
    The script only removes names from [dirs], so going through what is left
    is going through the entries whose name is still there. *)
Section Walk.
Variable prune : str -> list str -> list str.

Fixpoint walk (top : str) (t : tree) {struct t}
  : list (str * list str * list str) :=
  match t with
  | Dir files dirs =>
      let kept := prune top (map fst dirs) in
      (top, kept, files) ::
      (fix descend (ds : list (str * tree)) :=
         match ds with
         | [] => []
         | (d, sub) :: ds' =>
             (if mem d kept then walk (Path.join top d) sub else [])
             ++ descend ds'
         end) dirs
  end.
End Walk.

End Os.

(* ================================================================== *)
(** ** Sorting *)

(** [list.sort()] and [sorted] on strings. *)
Fixpoint insert (x : str) (l : list str) : list str :=
  match l with
  | [] => [x]
  | y :: l' => if str_leb x y then x :: l else y :: insert x l'
  end.

Definition sort (l : list str) : list str := fold_right insert [] l.

(* ================================================================== *)
(** ** [aggregate_markdown_files] *)

(** What the script does to the outside: it writes to the output file and
    reads the candidates.  [Abort s] ends a trace: [outfile.write(s)] raised
    [UnicodeEncodeError] where nothing catches it, nothing of [s] was
    written, and the exception left [aggregate_markdown_files]. *)
Inductive event :=
| Write (s : str)
| Read (path : str)
| Abort (s : str).

Definition written (tr : list event) : str :=
  flat_map (fun e => match e with Write s => s | _ => [] end) tr.

(** The output file is opened with [encoding='utf-8'] and the default
    [errors='strict']: the encoder refuses the code points U+D800 to U+DFFF. *)
Definition is_surrogate (c : char) : bool :=
  ((55296 <=? c) && (c <=? 57343))%N.

Definition encodable (s : str) : bool :=
  forallb (fun c => negb (is_surrogate c)) s.

(** [str(e)] for the [UnicodeEncodeError] of the UTF-8 encoder on [s]: it
    names the first run of surrogates, by its character when the run is one
    character long (a surrogate prints as [\u] and four hexadecimal digits)
    and by its first and last position otherwise. *)
Fixpoint from_surrogate (s : str) : str :=
  match s with
  | [] => []
  | c :: s' => if is_surrogate c then s else from_surrogate s'
  end.

Fixpoint surrogate_run (s : str) : nat :=
  match s with
  | c :: s' => if is_surrogate c then S (surrogate_run s') else 0
  | [] => 0
  end.

Definition decimal (n : nat) : str :=
  lit (DecimalString.NilEmpty.string_of_uint (Nat.to_uint n)).

Definition hexadecimal (c : char) : str :=
  lit (HexadecimalString.NilEmpty.string_of_uint (N.to_hex_uint c)).

Definition encode_error (s : str) : str :=
  let bad := from_surrogate s in
  let start := length s - length bad in
  match bad with
  | [] => []
  | c :: _ =>
      if surrogate_run bad =? 1
      then lit "'utf-8' codec can't encode character '\u" ++ hexadecimal c
           ++ lit "' in position " ++ decimal start
           ++ lit ": surrogates not allowed"
      else lit "'utf-8' codec can't encode characters in position "
           ++ decimal start ++ lit "-"
           ++ decimal (start + surrogate_run bad - 1)
           ++ lit ": surrogates not allowed"
  end.

(** [outfile.write(s)] outside a [try]. *)
Definition write (s : str) : list event :=
  if encodable s then [Write s] else [Abort s].

(** Statements in sequence: what follows an exception is not run. *)
Definition aborted (tr : list event) : bool :=
  existsb (fun e => match e with Abort _ => true | _ => false end) tr.

Definition and_then (a b : list event) : list event :=
  if aborted a then a else a ++ b.

Notation "a ;; b" := (and_then a b) (at level 61, right associativity).

(** [for x in l: body(x)] *)
Fixpoint for_each {A : Type} (body : A -> list event) (l : list A)
  : list event :=
  match l with
  | [] => []
  | x :: l' => body x ;; for_each body l'
  end.

(** Writes in the body of a [try] with [except Exception as e: handler(str(e))]:
    the first one that raises hands its message to the handler, and the
    rest of the body is not run. *)
Fixpoint try_writes (body : list str) (handler : str -> list event)
  : list event :=
  match body with
  | [] => []
  | s :: body' =>
      if encodable s then Write s :: try_writes body' handler
      else handler (encode_error s)
  end.

(** A [dict] from section key to file list, in insertion order. *)
Definition dict := list (str * list str).

(** Lines 65-68: [if k not in d: d[k] = []] and [d[k].append(v)]. *)
Fixpoint dict_append (k v : str) (d : dict) : dict :=
  match d with
  | [] => [(k, [v])]
  | (k', vs) :: d' =>
      if str_eqb k k' then (k', vs ++ [v]) :: d'
      else (k', vs) :: dict_append k v d'
  end.

(** [d[k]], for a key of [d]. *)
Fixpoint dict_get (k : str) (d : dict) : list str :=
  match d with
  | [] => []
  | (k', vs) :: d' => if str_eqb k k' then vs else dict_get k d'
  end.

Definition keys (d : dict) : list str := map fst d.

(** What a run leaves: the sorted candidates, the sections, the trace of
    its writes and reads, and the two counts that lines 103-104 put in
    their messages; these are [None] when an exception left the function
    before.  What standard output does with the messages is not part of
    the model. *)
Record outcome := Outcome {
  md_files : list str;
  sections : dict;
  trace : list event;
  reported_files : option nat;
  reported_sections : option nat
}.

Section Aggregate.
(** The process and the world it runs in: the working directory, the tree
    under the directory that is scanned, and what reading a path gives. *)
Variable cwd : str.
Variable fs : tree.
Variable read : str -> read_result.

Definition abspath := Path.abspath cwd.
Definition relpath := Path.relpath cwd.

(** [exclude = [abspath(join(directory, path)) for path in exclude]] *)
Definition resolve_exclude (directory : str) (exclude : list str) : list str :=
  map (fun path => abspath (Path.join directory path)) exclude.

(** [dirs[:] = [d for d in dirs if abspath(join(root, d)) not in exclude]] *)
Definition prune_dirs (exclude : list str) (root : str) (dirs : list str)
  : list str :=
  filter (fun d => negb (mem (abspath (Path.join root d)) exclude)) dirs.

(** Lines 51-53: the tests in the body of [for file in files]. *)
Definition is_candidate (exclude : list str) (output_file root file : str)
  : bool :=
  endswith (lower file) (lit ".md")
  && (let file_path := Path.join root file in
      negb (mem file_path exclude)
      && negb (str_eqb (abspath file_path) (abspath output_file))).

(** Lines 50-54 for one yielded triple: what is appended to [md_files]. *)
Definition found_in (exclude : list str) (output_file : str)
           (y : str * list str * list str) : list str :=
  let '(root, _, files) := y in
  map (Path.join root) (filter (is_candidate exclude output_file root) files).

(** Lines 46-54: the candidates in the order of the traversal. *)
Definition scan (directory output_file : str) (exclude : list str)
  : list str :=
  flat_map (found_in exclude output_file)
           (Os.walk (prune_dirs exclude) directory fs).

(** Lines 62-63: [dir_path]. *)
Definition section_key (directory file_path : str) : str :=
  Path.dirname (relpath file_path directory).

(** Lines 60-68. *)
Definition make_sections (directory : str) (files : list str) : dict :=
  fold_left (fun sections file_path =>
               dict_append (section_key directory file_path) file_path sections)
            files [].

(** Lines 77-81. *)
Definition write_section_title (section_path : str) : list event :=
  if str_eqb section_path (lit ".")
  then write (lit "## Root Files" ++ [NL; NL])
  else
    let section_title := replace SLASH (lit " > ") section_path in
    write (lit "## " ++ section_title ++ [NL; NL]).

(** Lines 84-101, for one file.  The two writes of lines 88-89 are outside
    the [try]; [open], [read] and the writes of lines 98-99 are inside, and
    the write of line 101 is in the handler, where nothing catches what it
    raises. *)
Definition write_file (directory file_path : str) : list event :=
  let file_name := Path.basename file_path in
  let rel_path := relpath file_path directory in
  let handler e :=
    write (lit "**Error reading file: " ++ e ++ lit "**"
           ++ [NL; NL] ++ lit "---" ++ [NL; NL]) in
  write (lit "### File: " ++ file_name ++ [NL; NL]) ;;
  write (lit "*Path: " ++ rel_path ++ lit "*" ++ [NL; NL]) ;;
  Read file_path
  :: match read file_path with
     | Content content =>
         let content := adjust_headings content 3 in
         try_writes [content; [NL; NL] ++ lit "---" ++ [NL; NL]] handler
     | Raises e => handler e
     end.

(** Lines 77-101: one turn of [for section_path in sorted(...)]. *)
Definition write_section (directory : str) (sections : dict)
           (section_path : str) : list event :=
  write_section_title section_path ;;
  for_each (write_file directory) (dict_get section_path sections).

(** Lines 71-101. *)
Definition write_document (directory output_file : str) (sections : dict)
  : list event :=
  write (lit "# Aggregated Markdown Documentation" ++ [NL; NL]) ;;
  write (lit "*Generated on: " ++ Path.basename output_file ++ lit "*"
         ++ [NL; NL]) ;;
  for_each (write_section directory sections) (sort (keys sections)).

(** Lines 56-104: what is done with the files the traversal found.  The
    two [print]s come after the [with] block: an exception in it leaves the
    function before them. *)
Definition render (directory output_file : str) (found : list str)
  : outcome :=
  let md_files := sort found in
  let sections := make_sections directory md_files in
  let trace := write_document directory output_file sections in
  Outcome md_files sections trace
          (if aborted trace then None else Some (length md_files))
          (if aborted trace then None else Some (length sections)).

(** Lines 28-104.  [exclude=None] stands for the empty list. *)
Definition aggregate_markdown_files
           (directory output_file : str) (exclude : list str) : outcome :=
  let directory := abspath directory in
  let exclude := resolve_exclude directory exclude in
  render directory output_file (scan directory output_file exclude).

(** The text of the output file after the run. *)
Definition document (o : outcome) : str := written (trace o).
End Aggregate.

(* ================================================================== *)
(** ** Vocabulary of the statements *)

(** *** Lines and headings *)

(** The lines of a text, as [^] and [$] see them under [re.MULTILINE]:
    separated by the newline character only. *)
Definition lines (s : str) : list str := str_split NL s.
Definition unlines (l : list str) : str := str_join [NL] l.

(** The length of the run of [#] a line starts with. *)
Fixpoint hash_run (l : str) : nat :=
  match l with
  | c :: l' => if is_hash c then S (hash_run l') else 0
  | [] => 0
  end.

(** A line that begins with one or more [#] followed by white space. *)
Definition is_heading_line (l : str) : bool :=
  (0 <? hash_run l)
  && match nth_error l (hash_run l) with
     | Some c => is_space c
     | None => false
     end.

(** A line made of a run of [#] and then nothing but white space. *)
Definition bare_marker (l : str) : bool :=
  (0 <? hash_run l) && forallb is_space (skipn (hash_run l) l).

(** [l'] is [l] with its [#] run lengthened by [n] when [l] is a heading
    line, and [l] itself otherwise. *)
Definition line_shifted (n : nat) (l l' : str) : Prop :=
  if is_heading_line l
  then hash_run l' = hash_run l + n
       /\ skipn (hash_run l') l' = skipn (hash_run l) l
  else l' = l.

Definition shift_line (n : nat) (l : str) : str :=
  if is_heading_line l then repeat HASH n ++ l else l.

(** Positions of the scan of [re.sub]: at the start of a line, and before
    the end of a line. *)
Definition line_start (pv : option char) : Prop :=
  pv = None \/ pv = Some NL.

Definition line_end (rest : str) : Prop :=
  match rest with [] => True | c :: _ => c = NL end.

(** The scan of [re.sub] inside [adjust_headings], from a position on. *)
Definition hsub (n : Z) : option char -> str -> str :=
  sub_at heading_re (increase_heading n).

(** After the end of a line the scan is at the start of the next one. *)
Definition next_line (n : Z) (more : str) : str :=
  match more with
  | [] => []
  | c :: more' => c :: hsub n (Some NL) more'
  end.

Fixpoint take_while (p : char -> bool) (l : str) : str :=
  match l with
  | c :: l' => if p c then c :: take_while p l' else []
  | [] => []
  end.

Fixpoint drop_while (p : char -> bool) (l : str) : str :=
  match l with
  | c :: l' => if p c then drop_while p l' else l
  | [] => []
  end.

(** *** Order and equality of strings *)

Definition str_le (a b : str) : Prop := str_leb a b = true.

Definition str_eq_dec : forall a b : str, {a = b} + {a <> b} :=
  list_eq_dec N.eq_dec.

(** *** Names, paths and trees *)

(** Names as a directory listing has them: not empty, without [/], and
    neither [.] nor [..]. *)
Definition no_slash (n : str) : bool :=
  forallb (fun c => negb (char_eqb c SLASH)) n.

Definition good_name (n : str) : bool :=
  negb (Path.is_nil n) && no_slash n
  && negb (str_eqb n Path.curdir) && negb (str_eqb n Path.pardir).

(** A normalised absolute path: one or two leading slashes, then the
    components. *)
Definition root_path (slashes : nat) (comps : list str) : str :=
  repeat SLASH slashes ++ str_join Path.sep comps.

(** [s] starts with the path [d] and a separator: [s] lies below [d]. *)
Definition below (d s : str) : bool := startswith s (d ++ Path.sep).

(** A directory tree whose listings hold good names only. *)
Fixpoint wf_tree (t : tree) : bool :=
  match t with
  | Dir files dirs =>
      forallb good_name files
      && forallb good_name (map fst dirs)
      && (fix all (ds : list (str * tree)) : bool :=
            match ds with
            | [] => true
            | (_, sub) :: ds' => wf_tree sub && all ds'
            end) dirs
  end.

(** A directory tree in which no listing holds a name twice. *)
Fixpoint distinct (l : list str) : bool :=
  match l with
  | [] => true
  | x :: l' => negb (mem x l') && distinct l'
  end.

Fixpoint distinct_names (t : tree) : bool :=
  match t with
  | Dir files dirs =>
      distinct (files ++ map fst dirs)
      && (fix all (ds : list (str * tree)) : bool :=
            match ds with
            | [] => true
            | (_, sub) :: ds' => distinct_names sub && all ds'
            end) dirs
  end.

(** Two listings of one file system state: the same entries, enumerated in
    another order, at every level. *)
Inductive same_listing : tree -> tree -> Prop :=
| same_dir files files' dirs dirs' :
    Permutation files files' -> same_dirs dirs dirs' ->
    same_listing (Dir files dirs) (Dir files' dirs')
with same_dirs : list (str * tree) -> list (str * tree) -> Prop :=
| same_nil : same_dirs [] []
| same_skip d t t' l l' :
    same_listing t t' -> same_dirs l l' ->
    same_dirs ((d, t) :: l) ((d, t') :: l')
| same_swap e1 e2 l : same_dirs (e1 :: e2 :: l) (e2 :: e1 :: l)
| same_trans l1 l2 l3 : same_dirs l1 l2 -> same_dirs l2 l3 -> same_dirs l1 l3.

Scheme same_listing_ind2 := Minimality for same_listing Sort Prop
  with same_dirs_ind2 := Minimality for same_dirs Sort Prop.

Combined Scheme same_listing_mutind from same_listing_ind2, same_dirs_ind2.

(** *** The traversal *)

(** The root of a yielded triple, its sub-directories and its files. *)
Definition yield_root (y : str * list str * list str) : str := fst (fst y).
Definition yield_dirs (y : str * list str * list str) : list str :=
  snd (fst y).
Definition yield_files (y : str * list str * list str) : list str := snd y.

(** What [os.walk] yields below one directory, after the consumer left
    [kept] in its [dirs]. *)
Definition walk_children (prune : str -> list str -> list str)
           (top : str) (kept : list str) (dirs : list (str * tree))
  : list (str * list str * list str) :=
  flat_map (fun e => if mem (fst e) kept
                     then Os.walk prune (Path.join top (fst e)) (snd e)
                     else []) dirs.

(** The traversal of a run: what [os.walk] yields when the script prunes
    with its exclusion list, and what it yields when nothing is pruned,
    that is every directory of the tree. *)
Definition visited (cwd : str) (fs : tree) (directory : str)
           (exclude : list str) : list (str * list str * list str) :=
  let directory := abspath cwd directory in
  Os.walk (prune_dirs cwd (resolve_exclude cwd directory exclude)) directory fs.

Definition all_directories (cwd : str) (fs : tree) (directory : str)
  : list (str * list str * list str) :=
  visited cwd fs directory [].

(** No directory on the way from the components [bs] down through the names
    [ds] is in the exclusion list. *)
Definition unpruned (exclude : list str) (sl : nat) (bs ds : list str) : Prop :=
  forall ds1 d ds2,
    ds = ds1 ++ d :: ds2 -> ~ In (root_path sl (bs ++ ds1 ++ [d])) exclude.

(** The candidates found at and below one directory, and those of one
    entry of a listing when [kept] is what pruning left. *)
Definition scan_at (cwd : str) (exclude : list str) (output_file : str)
           (top : str) (t : tree) : list str :=
  flat_map (found_in cwd exclude output_file)
           (Os.walk (prune_dirs cwd exclude) top t).

Definition scan_child (cwd : str) (exclude : list str) (output_file : str)
           (top : str) (kept : list str) (e : str * tree) : list str :=
  if mem (fst e) kept
  then scan_at cwd exclude output_file (Path.join top (fst e)) (snd e)
  else [].

(** *** Sections and output *)

(** Grouping by an arbitrary key, as [make_sections] does with the section
    key. *)
Definition group_by (key : str -> str) (files : list str) (d : dict) : dict :=
  fold_left (fun sections file_path =>
               dict_append (key file_path) file_path sections) files d.

(** The pieces of a file's block in the output, and the paths read in the
    course of a run. *)
Definition separator : str := [NL; NL] ++ lit "---" ++ [NL; NL].

Definition file_heading (file_path : str) : str :=
  lit "### File: " ++ Path.basename file_path ++ [NL; NL].

Definition path_line (cwd directory file_path : str) : str :=
  lit "*Path: " ++ relpath cwd file_path directory ++ lit "*" ++ [NL; NL].

Definition error_block (message : str) : str :=
  lit "**Error reading file: " ++ message ++ lit "**" ++ separator.

Definition reads (tr : list event) : list str :=
  flat_map (fun e => match e with Read p => [p] | _ => [] end) tr.

(** *** A run in which every write goes through *)

(** What the [try] of lines 91-101 leaves for a content that was read: the
    content with its headings shifted and the separator, or the placeholder
    with the message of the encoder when the content cannot be written. *)
Definition content_block (content : str) : list event :=
  let content := adjust_headings content 3 in
  if encodable content then [Write content; Write separator]
  else [Write (error_block (encode_error content))].

(** The block of one file, of one section and the whole trace, when no
    write raises outside the [try]. *)
Definition file_block (cwd : str) (read : str -> read_result)
           (directory file_path : str) : list event :=
  [Write (file_heading file_path); Write (path_line cwd directory file_path);
   Read file_path]
  ++ match read file_path with
     | Content content => content_block content
     | Raises e => [Write (error_block e)]
     end.

Definition section_heading (section_path : str) : str :=
  if str_eqb section_path (lit ".") then lit "## Root Files" ++ [NL; NL]
  else lit "## " ++ replace SLASH (lit " > ") section_path ++ [NL; NL].

Definition section_block (cwd : str) (read : str -> read_result)
           (directory : str) (sections : dict) (section_path : str)
  : list event :=
  Write (section_heading section_path)
  :: flat_map (file_block cwd read directory) (dict_get section_path sections).

Definition preamble (output_file : str) : list event :=
  [Write (lit "# Aggregated Markdown Documentation" ++ [NL; NL]);
   Write (lit "*Generated on: " ++ Path.basename output_file ++ lit "*"
          ++ [NL; NL])].

(** The sections in a given order of their keys, after the two lines at the
    head. *)
Definition whole_trace (cwd : str) (read : str -> read_result)
           (directory output_file : str) (sections : dict) (ks : list str)
  : list event :=
  preamble output_file
  ++ flat_map (section_block cwd read directory sections) ks.

(** Every string that the run writes outside the [try] for the candidates
    [files] can be encoded: the name of the output file, and for each
    candidate its name, its relative path and the message of the exception
    when reading it raises one. *)
Definition block_encodable (cwd : str) (read : str -> read_result)
           (directory file_path : str) : bool :=
  encodable (Path.basename file_path)
  && encodable (relpath cwd file_path directory)
  && match read file_path with
     | Raises e => encodable e
     | Content _ => true
     end.

Definition all_encodable (cwd : str) (read : str -> read_result)
           (directory output_file : str) (files : list str) : bool :=
  encodable (Path.basename output_file)
  && forallb (block_encodable cwd read directory) files.

(** *** Every directory of the tree *)



(** *** Sample runs *)

(** The working directory is [/r] and the script is started there on [.]
    with output [out.md]. *)
Definition sample_cwd : str := lit "/r".

Definition sample_text : str :=
  lit "# Title" ++ [NL] ++ lit "see issue #12" ++ [NL] ++ lit "#tag"
  ++ [NL; NL] ++ lit "## Sub  section" ++ [NL].

Definition flat_tree : tree := Dir [lit "a.md"] [].

Definition sub_tree : tree :=
  Dir [lit "a.md"] [(lit "sub", Dir [lit "b.md"] [])].

Definition skip_tree : tree :=
  Dir [lit "x.md"] [(lit "skip", Dir [lit "y.md"] [])].

Definition listing_one : tree :=
  Dir [lit "a.md"; lit "b.md"]
      [(lit "sub", Dir [lit "c.md"] []); (lit "docs", Dir [lit "d.md"] [])].

Definition listing_two : tree :=
  Dir [lit "b.md"; lit "a.md"]
      [(lit "docs", Dir [lit "d.md"] []); (lit "sub", Dir [lit "c.md"] [])].

(** A file name that is not UTF-8: the byte 0xFF comes out of [os.walk]
    as the lone surrogate U+DCFF. *)
Definition odd_name : str := lit "y" ++ [56575%N] ++ lit ".md".

Definition odd_tree : tree := Dir [lit "x.md"; odd_name] [].

Definition sample_read (p : str) : read_result :=
  if str_eqb p (lit "/r/a.md") then Content (lit "# Title")
  else if str_eqb p (lit "/r/sub/b.md") then Content (lit "## Sub")
  else if str_eqb p (lit "/r/" ++ odd_name) then Content (lit "odd")
  else Raises (lit "[Errno 13] Permission denied: '" ++ p ++ lit "'").

Definition sample_run (fs : tree) (exclude : list str) : outcome :=
  aggregate_markdown_files sample_cwd fs sample_read
                           (lit ".") (lit "out.md") exclude.

(* ================================================================== *)
(** * Properties *)

(** ** The embedding at work *)

Example adjust_title :
  adjust_headings (lit "# Title") 3 = lit "#### Title".
Proof. reflexivity. Qed.

Example adjust_sub :
  adjust_headings (lit "## Sub") 3 = lit "##### Sub".
Proof. reflexivity. Qed.

Example adjust_sample_text :
  adjust_headings sample_text 3
  = lit "#### Title" ++ [NL] ++ lit "see issue #12" ++ [NL] ++ lit "#tag"
    ++ [NL; NL] ++ lit "##### Sub  section" ++ [NL].
Proof. reflexivity. Qed.

(** [\s+] runs over a newline: after a bare marker the match goes on into
    the next line, which is then not looked at again. *)
Example adjust_after_bare_marker :
  adjust_headings (lit "#" ++ [NL] ++ lit "# Title") 3
  = lit "####" ++ [NL] ++ lit "# Title".
Proof. reflexivity. Qed.

Example heading_level_first :
  get_heading_level (lit "intro" ++ [NL] ++ lit "## Sub" ++ [NL] ++ lit "# Top")
  = 2.
Proof. reflexivity. Qed.

Example heading_level_none :
  get_heading_level (lit "no heading #here") = 0.
Proof. reflexivity. Qed.

Example normpath_dots :
  Path.normpath (lit "//a/../b/./c/") = lit "//b/c".
Proof. reflexivity. Qed.

Example relpath_up :
  Path.relpath (lit "/r") (lit "/q/x") (lit "x") = lit "../../q/x".
Proof. reflexivity. Qed.

Example dirname_plain : Path.dirname (lit "a.md") = [].
Proof. reflexivity. Qed.

Example sub_run_counts :
  reported_files (sample_run sub_tree []) = Some 2
  /\ reported_sections (sample_run sub_tree []) = Some 2.
Proof. split; reflexivity. Qed.

Example skip_run_counts :
  reported_files (sample_run skip_tree [lit "skip"]) = Some 1
  /\ reported_sections (sample_run skip_tree [lit "skip"]) = Some 1.
Proof. split; reflexivity. Qed.

(** The messages of the encoder, as CPython words them. *)
Example encode_error_one :
  encode_error (lit "ab" ++ [56448%N] ++ lit "c")
  = lit "'utf-8' codec can't encode character '\udc80' in position 2: surrogates not allowed".
Proof. reflexivity. Qed.

Example encode_error_run :
  encode_error (lit "ab" ++ [56448%N; 56449%N] ++ lit "c" ++ [56450%N])
  = lit "'utf-8' codec can't encode characters in position 2-3: surrogates not allowed".
Proof. reflexivity. Qed.

(** A name that cannot be encoded ends the run at its heading: the first
    file has its block, the second is never read, nothing is printed. *)
Example odd_run :
  trace (sample_run odd_tree [])
  = preamble (lit "out.md")
    ++ [Write (lit "## " ++ [NL; NL]);
        Write (lit "### File: x.md" ++ [NL; NL]);
        Write (lit "*Path: x.md*" ++ [NL; NL]);
        Read (lit "/r/x.md");
        Write (lit "**Error reading file: [Errno 13] Permission denied: '/r/x.md'**"
               ++ [NL; NL] ++ lit "---" ++ [NL; NL]);
        Abort (lit "### File: " ++ odd_name ++ [NL; NL])]
  /\ reported_files (sample_run odd_tree []) = None.
Proof. split; reflexivity. Qed.

(** ** Text *)

Lemma char_eqb_eq a b : char_eqb a b = true <-> a = b.
Proof. apply N.eqb_eq. Qed.

Lemma char_eqb_refl a : char_eqb a a = true.
Proof. apply N.eqb_refl. Qed.

Lemma str_eqb_eq a : forall b, str_eqb a b = true <-> a = b.
Proof.
  induction a as [|x a IH]; intros [|y b]; simpl; split; intro H;
    try reflexivity; try discriminate.
  - apply andb_true_iff in H as [H1 H2].
    apply char_eqb_eq in H1. apply IH in H2. congruence.
  - injection H as -> ->. rewrite char_eqb_refl. simpl. now apply IH.
Qed.

Lemma str_eqb_refl a : str_eqb a a = true.
Proof. now apply str_eqb_eq. Qed.

Lemma str_eqb_neq a b : str_eqb a b = false <-> a <> b.
Proof.
  split.
  - intros H E. apply str_eqb_eq in E. congruence.
  - intros H. destruct (str_eqb a b) eqn:E; [|reflexivity].
    apply str_eqb_eq in E. contradiction.
Qed.

Lemma is_space_not_hash c : is_space c = true -> is_hash c = false.
Proof.
  unfold is_hash, char_eqb, HASH. intros H.
  destruct (N.eqb_spec c 35) as [->|]; [discriminate H | reflexivity].
Qed.

(** ** The matcher *)

Section PlusLoop.
Variable R : Type.
Variable p : char -> bool.
Variable k : option char -> str -> option R.

Lemma plus_loop_stuck pv s :
  match s with [] => True | c :: _ => p c = false end ->
  plus_loop p k pv s = None.
Proof. destruct s as [|c s]; simpl; [easy | now intros ->]. Qed.

(** Greedy: when the continuation accepts after the whole run, that is
    the match. *)
Lemma plus_loop_greedy run : forall pv c rest r,
  forallb p (run ++ [c]) = true ->
  match rest with [] => True | x :: _ => p x = false end ->
  k (Some c) rest = Some r ->
  plus_loop p k pv (run ++ c :: rest) = Some r.
Proof.
  induction run as [|x run IH]; intros pv c rest r Hall Hrest Hk; simpl in *.
  - apply andb_true_iff in Hall as [-> _].
    now rewrite (plus_loop_stuck (Some c) rest Hrest).
  - apply andb_true_iff in Hall as [-> Hall].
    now rewrite (IH (Some x) c rest r Hall Hrest Hk).
Qed.

Lemma plus_loop_greedy_app full rest : forall run c pv r,
  full = run ++ [c] ->
  forallb p full = true ->
  match rest with [] => True | x :: _ => p x = false end ->
  k (Some c) rest = Some r ->
  plus_loop p k pv (full ++ rest) = Some r.
Proof.
  intros run c pv r -> Hall Hrest Hk. rewrite <- app_assoc.
  now apply plus_loop_greedy.
Qed.

Lemma plus_loop_run_refused run : forall more pv,
  match more with [] => True | x :: _ => p x = false end ->
  (forall pre c post, run = pre ++ c :: post ->
                      k (Some c) (post ++ more) = None) ->
  plus_loop p k pv (run ++ more) = None.
Proof.
  induction run as [|x run IH]; intros more pv Hmore H.
  - now apply plus_loop_stuck.
  - simpl. destruct (p x); [|reflexivity].
    rewrite IH; [apply (H [] x run eq_refl) | exact Hmore |].
    intros pre c post ->. apply (H (x :: pre) c post eq_refl).
Qed.

End PlusLoop.
Arguments plus_loop_stuck {R p k} pv s _.
Arguments plus_loop_greedy_app {R p k} full rest run c pv r _ _ _ _.
Arguments plus_loop_run_refused {R p k} run more pv _ _.

Section SubFuel.
Variable r : regex.
Variable repl : list str -> str.

(** Any fuel above the length of the subject gives the same result. *)
Lemma sub_from_fuel f1 : forall f2 pv s,
  length s < f1 -> length s < f2 ->
  sub_from f1 r repl pv s = sub_from f2 r repl pv s.
Proof.
  induction f1 as [|f1 IH]; intros f2 pv s H1 H2; [lia|].
  destruct f2 as [|f2]; [lia|]. simpl.
  assert (Hcopy :
    match s with [] => [] | c :: s' => c :: sub_from f1 r repl (Some c) s' end
    = match s with [] => [] | c :: s' => c :: sub_from f2 r repl (Some c) s' end).
  { destruct s as [|c s']; [reflexivity|]. simpl in *. f_equal.
    apply IH; lia. }
  rewrite Hcopy. destruct (match_at r pv s) as [st|]; [|reflexivity].
  destruct (length s - length (rest st) =? 0) eqn:E; [reflexivity|].
  apply Nat.eqb_neq in E. f_equal. apply IH; lia.
Qed.

Lemma sub_from_S f pv s :
  sub_from (S f) r repl pv s =
  let copy :=
    match s with
    | [] => []
    | c :: s' => c :: sub_from f r repl (Some c) s'
    end in
  match match_at r pv s with
  | Some st =>
      if length s - length (rest st) =? 0
      then repl (caps st) ++ copy
      else repl (caps st) ++ sub_from f r repl (prev st) (rest st)
  | None => copy
  end.
Proof. reflexivity. Qed.

Lemma sub_at_nil pv : match_at r pv [] = None -> sub_at r repl pv [] = [].
Proof. unfold sub_at. simpl. now intros ->. Qed.

Lemma sub_at_copy pv c s :
  match_at r pv (c :: s) = None ->
  sub_at r repl pv (c :: s) = c :: sub_at r repl (Some c) s.
Proof.
  unfold sub_at. intros H. rewrite sub_from_S. cbv zeta. rewrite H.
  reflexivity.
Qed.

Lemma sub_at_match pv s st :
  match_at r pv s = Some st ->
  length (rest st) < length s ->
  sub_at r repl pv s = repl (caps st) ++ sub_at r repl (prev st) (rest st).
Proof.
  unfold sub_at. intros Hm Hlt. rewrite sub_from_S. cbv zeta. rewrite Hm.
  destruct (length s - length (rest st) =? 0) eqn:E.
  - apply Nat.eqb_eq in E. lia.
  - f_equal. apply sub_from_fuel; lia.
Qed.
End SubFuel.

(** ** The heading pattern *)

Lemma firstn_consumed {A : Type} (a b : list A) :
  firstn (length (a ++ b) - length b) (a ++ b) = a.
Proof.
  rewrite length_app, Nat.add_sub.
  rewrite firstn_app, Nat.sub_diag, firstn_all. simpl. apply app_nil_r.
Qed.

Lemma line_end_stuck rest : line_end rest ->
  match rest with [] => True | x :: _ => not_nl x = false end.
Proof. destruct rest; simpl; [easy | now intros ->]. Qed.

Lemma heading_match pv k ws w run z more :
  line_start pv ->
  forallb is_space (ws ++ [w]) = true ->
  is_space (hd NL (run ++ [z])) = false ->
  forallb not_nl (run ++ [z]) = true ->
  line_end more ->
  match_at heading_re pv
    ((repeat HASH k ++ [HASH]) ++ (ws ++ [w]) ++ (run ++ [z]) ++ more)
  = Some (MState (Some z) more
            [repeat HASH k ++ [HASH]; (ws ++ [w]) ++ run ++ [z]]).
Proof.
  intros Hpv Hws Hc Htext Hrest.
  set (hs := repeat HASH k ++ [HASH]).
  set (sp := ws ++ [w]) in *.
  set (tx := run ++ [z]) in *.
  unfold match_at, heading_re. cbn [exec prev rest caps].
  replace (at_bol _) with true by (destruct Hpv as [-> | ->]; reflexivity).
  erewrite (plus_loop_greedy_app hs _ (repeat HASH k) HASH);
    [reflexivity | reflexivity | | | ].
  - unfold hs. rewrite forallb_app. simpl. rewrite andb_true_r.
    apply forallb_forall. intros x Hx. apply repeat_spec in Hx. now subst.
  - unfold sp. destruct ws; simpl in *; apply andb_true_iff in Hws as [H _];
      now apply is_space_not_hash.
  - cbn [rest prev caps app].
    erewrite (plus_loop_greedy_app sp _ ws w);
      [reflexivity | reflexivity | exact Hws | |].
    { destruct tx; [discriminate Hc | exact Hc]. }
    cbn [rest prev caps app].
    erewrite (plus_loop_greedy_app tx _ run z);
      [reflexivity | reflexivity | exact Htext | now apply line_end_stuck |].
    cbn [rest prev caps app].
    replace (at_eol _) with true
      by (unfold at_eol; destruct more; simpl in *; [|subst]; reflexivity).
    do 3 f_equal.
    + apply firstn_consumed.
    + f_equal. rewrite (app_assoc sp tx more). apply firstn_consumed.
Qed.

Lemma heading_no_match_inside x s :
  not_nl x = true -> match_at heading_re (Some x) s = None.
Proof.
  intros Hx. unfold match_at, heading_re. cbn [exec prev rest caps].
  unfold at_bol. cbn [prev]. unfold not_nl in Hx.
  now destruct (char_eqb x NL).
Qed.

Lemma heading_no_match_no_hash pv s :
  match s with [] => True | c :: _ => is_hash c = false end ->
  match_at heading_re pv s = None.
Proof.
  intros Hs. unfold match_at, heading_re. cbn [exec prev rest caps].
  destruct (at_bol _); [|reflexivity]. now apply plus_loop_stuck.
Qed.

Lemma heading_no_match_text pv k c more :
  is_hash c = false -> is_space c = false ->
  match_at heading_re pv (repeat HASH k ++ c :: more) = None.
Proof.
  intros Hh Hs. unfold match_at, heading_re. cbn [exec prev rest caps].
  destruct (at_bol _); [|reflexivity].
  apply plus_loop_run_refused; [exact Hh|].
  intros pre h post E. cbn [exec prev rest caps].
  apply plus_loop_stuck.
  destruct post as [|y post]; [exact Hs|]. simpl.
  assert (Hy : In y (repeat HASH k)) by (rewrite E; apply in_elt_inv || (apply in_or_app; right; right; now left)).
  apply repeat_spec in Hy. now subst.
Qed.

(** ** Lines *)

Lemma hash_run_split l :
  l = repeat HASH (hash_run l) ++ skipn (hash_run l) l
  /\ match skipn (hash_run l) l with
     | [] => True
     | c :: _ => is_hash c = false
     end.
Proof.
  induction l as [|c l [IH1 IH2]]; simpl; [easy|].
  destruct (is_hash c) eqn:E; simpl.
  - split; [|exact IH2]. apply char_eqb_eq in E. subst c. now f_equal.
  - now split.
Qed.

Lemma take_drop_while p l : l = take_while p l ++ drop_while p l.
Proof.
  induction l as [|c l IH]; simpl; [reflexivity|].
  destruct (p c); simpl; [now f_equal | reflexivity].
Qed.

Lemma take_while_all p l : forallb p (take_while p l) = true.
Proof.
  induction l as [|c l IH]; simpl; [reflexivity|].
  destruct (p c) eqn:E; simpl; [now rewrite E | reflexivity].
Qed.

Lemma drop_while_head p l :
  match drop_while p l with [] => True | c :: _ => p c = false end.
Proof.
  induction l as [|c l IH]; simpl; [easy|].
  destruct (p c) eqn:E; [exact IH | exact E].
Qed.

Lemma drop_while_nil p l : drop_while p l = [] -> forallb p l = true.
Proof.
  induction l as [|c l IH]; simpl; [reflexivity|].
  destruct (p c); [exact IH | discriminate].
Qed.

Lemma repeat_snoc {A : Type} (x : A) n : repeat x n ++ [x] = repeat x (S n).
Proof. induction n; simpl; [reflexivity | now f_equal]. Qed.

(** The shape of a heading line that is not a bare marker. *)
Lemma heading_line_shape l :
  is_heading_line l = true -> bare_marker l = false ->
  exists k ws w run z,
    l = (repeat HASH k ++ [HASH]) ++ (ws ++ [w]) ++ (run ++ [z])
    /\ hash_run l = S k
    /\ forallb is_space (ws ++ [w]) = true
    /\ is_space (hd NL (run ++ [z])) = false.
Proof.
  unfold is_heading_line, bare_marker. intros Hh Hb.
  apply andb_true_iff in Hh as [Hk Hsp]. rewrite Hk in Hb. simpl in Hb.
  apply Nat.ltb_lt in Hk.
  destruct (hash_run_split l) as [El _].
  rewrite <- hd_error_skipn in Hsp.
  set (r1 := skipn (hash_run l) l) in *.
  destruct (hash_run l) as [|k] eqn:Ek; [lia|].
  pose proof (take_drop_while is_space r1) as Er1.
  pose proof (take_while_all is_space r1) as Hws.
  pose proof (drop_while_head is_space r1) as Htx.
  destruct (drop_while is_space r1) as [|c tx] eqn:Edrop.
  { apply drop_while_nil in Edrop. congruence. }
  destruct (take_while is_space r1) as [|w0 ws0] eqn:Etake.
  { destruct r1 as [|c1 r1']; [discriminate Hsp|]. simpl in Hsp, Etake.
    rewrite Hsp in Etake. discriminate. }
  destruct (exists_last (l := w0 :: ws0)) as (ws & w & Ews); [discriminate|].
  destruct (exists_last (l := c :: tx)) as (run & z & Etx); [discriminate|].
  exists k, ws, w, run, z. rewrite <- Ews, <- Etx, repeat_snoc.
  repeat split.
  - rewrite El at 1. f_equal. exact Er1.
  - exact Hws.
  - exact Htx.
Qed.

(** The shape of a line that is neither a heading line nor a bare marker. *)
Lemma plain_line_shape l :
  is_heading_line l = false -> bare_marker l = false ->
  match l with [] => True | c :: _ => is_hash c = false end
  \/ exists k c more,
       l = repeat HASH k ++ c :: more
       /\ is_hash c = false /\ is_space c = false.
Proof.
  unfold is_heading_line, bare_marker. intros Hh Hb.
  destruct (hash_run_split l) as [El Hc].
  rewrite <- hd_error_skipn in Hh.
  destruct (hash_run l) as [|k] eqn:Ek.
  - left. simpl in Hc. exact Hc.
  - right. change (0 <? S k) with true in Hh, Hb.
    destruct (skipn (S k) l) as [|c more] eqn:Es; [discriminate Hb|].
    simpl in Hh. exists (S k), c, more. now repeat split.
Qed.

(** ** The scan of [re.sub], one line at a time *)

Section Shift.
Variable n : Z.
Hypothesis n_pos : (0 < n)%Z.

Lemma increase_heading_shape k sp tx :
  increase_heading n [repeat HASH k ++ [HASH]; sp ++ tx]
  = repeat HASH (Z.to_nat n) ++ (repeat HASH k ++ [HASH]) ++ sp ++ tx.
Proof.
  unfold increase_heading, group. simpl nth.
  rewrite (app_assoc (repeat HASH (Z.to_nat n))). f_equal.
  rewrite repeat_snoc, repeat_length, <- repeat_app. f_equal. lia.
Qed.

Lemma scan_line_end pv more :
  line_end more ->
  match_at heading_re pv more = None ->
  hsub n pv more = next_line n more.
Proof.
  intros Hend Hm. destruct more as [|c more']; simpl.
  - now apply sub_at_nil.
  - simpl in Hend. subst c. unfold hsub. now rewrite sub_at_copy.
Qed.

(** Inside a line nothing matches: the rest of the line is copied. *)
Lemma scan_inside l : forall x more,
  not_nl x = true -> forallb not_nl l = true -> line_end more ->
  hsub n (Some x) (l ++ more) = l ++ next_line n more.
Proof.
  induction l as [|c l IH]; intros x more Hx Hl Hend; simpl.
  - apply scan_line_end; [exact Hend | now apply heading_no_match_inside].
  - simpl in Hl. apply andb_true_iff in Hl as [Hc Hl].
    unfold hsub. rewrite sub_at_copy by now apply heading_no_match_inside.
    f_equal. now apply IH.
Qed.

Lemma line_end_no_hash more :
  line_end more ->
  match more with [] => True | c :: _ => is_hash c = false end.
Proof. destruct more; simpl; [easy | now intros ->]. Qed.

(** One line, from its start. *)
Lemma scan_line l pv more :
  line_start pv -> forallb not_nl l = true -> bare_marker l = false ->
  line_end more ->
  hsub n pv (l ++ more) = shift_line (Z.to_nat n) l ++ next_line n more.
Proof.
  intros Hpv Hl Hbare Hend. unfold shift_line.
  destruct (is_heading_line l) eqn:Hh.
  - destruct (heading_line_shape l Hh Hbare)
      as (k & ws & w & run & z & El & _ & Hws & Hc).
    assert (Htx : forallb not_nl (run ++ [z]) = true).
    { rewrite El, !forallb_app in Hl. rewrite forallb_app.
      apply andb_true_iff in Hl as [_ Hl].
      now apply andb_true_iff in Hl as [_ Hl]. }
    assert (Hz : not_nl z = true).
    { rewrite forallb_app in Htx. apply andb_true_iff in Htx as [_ Hz].
      simpl in Hz. now rewrite andb_true_r in Hz. }
    pose proof (heading_match pv k ws w run z more Hpv Hws Hc Htx Hend) as Hm.
    subst l. unfold hsub.
    replace (((repeat HASH k ++ [HASH]) ++ (ws ++ [w]) ++ run ++ [z]) ++ more)
      with ((repeat HASH k ++ [HASH]) ++ (ws ++ [w]) ++ (run ++ [z]) ++ more)
      by now rewrite <- !app_assoc.
    rewrite (sub_at_match _ _ _ _ _ Hm).
    + cbn [caps prev rest]. rewrite increase_heading_shape. f_equal.
      apply scan_line_end;
        [exact Hend | now apply heading_no_match_inside].
    + cbn [rest]. rewrite !length_app. simpl. lia.
  - destruct l as [|c l].
    + simpl. apply scan_line_end; [exact Hend|].
      apply heading_no_match_no_hash. now apply line_end_no_hash.
    + assert (Hm : match_at heading_re pv ((c :: l) ++ more) = None).
      { destruct (plain_line_shape (c :: l) Hh Hbare)
          as [Hc | (k & c' & more' & El & Hc1 & Hc2)].
        - now apply heading_no_match_no_hash.
        - rewrite El, <- app_assoc. now apply heading_no_match_text. }
      simpl in Hl. apply andb_true_iff in Hl as [Hc Hl].
      unfold hsub. simpl app in *. rewrite sub_at_copy by exact Hm.
      f_equal. now apply scan_inside.
Qed.
End Shift.

Lemma split_nonempty c s : str_split c s <> [].
Proof.
  destruct s as [|x s]; simpl; [discriminate|].
  destruct (char_eqb x c); [discriminate|].
  destruct (str_split c s); discriminate.
Qed.

Lemma unlines_cons l ls :
  ls <> [] -> unlines (l :: ls) = l ++ NL :: unlines ls.
Proof. destruct ls; [easy | reflexivity]. Qed.

Lemma unlines_lines s : unlines (lines s) = s.
Proof.
  unfold lines. induction s as [|x s IH]; [reflexivity|].
  simpl. destruct (char_eqb x NL) eqn:E.
  - apply char_eqb_eq in E. subst x.
    rewrite unlines_cons by apply split_nonempty. simpl. now f_equal.
  - pose proof (split_nonempty NL s) as Hne.
    destruct (str_split NL s) as [|l ls]; [easy|].
    change (unlines ((x :: l) :: ls) = x :: s). rewrite <- IH.
    destruct ls as [|l2 ls]; reflexivity.
Qed.

Lemma lines_no_newline s : Forall (fun l => forallb not_nl l = true) (lines s).
Proof.
  unfold lines. induction s as [|x s IH]; simpl.
  - now constructor.
  - destruct (char_eqb x NL) eqn:E.
    + now constructor.
    + destruct (str_split NL s) as [|l ls].
      * constructor; [|constructor]. simpl. unfold not_nl. now rewrite E.
      * inversion IH; subst. constructor; [|assumption].
        simpl. unfold not_nl at 1. now rewrite E.
Qed.

Lemma lines_app_line l : forall more,
  forallb not_nl l = true ->
  lines (l ++ NL :: more) = l :: lines more.
Proof.
  unfold lines. induction l as [|x l IH]; intros more Hl; simpl.
  - reflexivity.
  - simpl in Hl. apply andb_true_iff in Hl as [Hx Hl].
    unfold not_nl in Hx. destruct (char_eqb x NL); [discriminate|].
    now rewrite IH.
Qed.

Lemma lines_single l : forallb not_nl l = true -> lines l = [l].
Proof.
  unfold lines. induction l as [|x l IH]; intros Hl; simpl; [reflexivity|].
  simpl in Hl. apply andb_true_iff in Hl as [Hx Hl].
  unfold not_nl in Hx. destruct (char_eqb x NL); [discriminate|].
  now rewrite IH.
Qed.

Lemma lines_unlines ls :
  ls <> [] -> Forall (fun l => forallb not_nl l = true) ls ->
  lines (unlines ls) = ls.
Proof.
  induction ls as [|l ls IH]; intros Hne Hall; [easy|].
  inversion Hall as [|? ? Hl Hls]; subst.
  destruct ls as [|l2 ls].
  - now apply lines_single.
  - rewrite unlines_cons by discriminate.
    rewrite lines_app_line by exact Hl. f_equal. now apply IH.
Qed.

Section ShiftLines.
Variable n : Z.
Hypothesis n_pos : (0 < n)%Z.

(** The whole scan: line by line. *)
Lemma scan_lines ls : forall pv,
  ls <> [] -> line_start pv ->
  Forall (fun l => forallb not_nl l = true) ls ->
  forallb (fun l => negb (bare_marker l)) ls = true ->
  hsub n pv (unlines ls) = unlines (map (shift_line (Z.to_nat n)) ls).
Proof.
  induction ls as [|l ls IH]; intros pv Hne Hpv Hnl Hbare; [easy|].
  inversion Hnl as [|? ? Hl Hls]; subst.
  simpl in Hbare. apply andb_true_iff in Hbare as [Hb Hbs].
  apply negb_true_iff in Hb.
  destruct ls as [|l2 ls].
  - cbn [unlines str_join map]. rewrite <- (app_nil_r l) at 1.
    rewrite (scan_line n n_pos l pv [] Hpv Hl Hb I). apply app_nil_r.
  - rewrite unlines_cons by discriminate.
    rewrite (scan_line n n_pos l pv (NL :: unlines (l2 :: ls)) Hpv Hl Hb
                       (eq_refl NL)).
    cbn [next_line map]. rewrite (unlines_cons (shift_line (Z.to_nat n) l)) by discriminate.
    do 2 f_equal. apply IH; [discriminate | now right | exact Hls | exact Hbs].
Qed.

Lemma adjust_headings_lines content :
  forallb (fun l => negb (bare_marker l)) (lines content) = true ->
  adjust_headings content n
  = unlines (map (shift_line (Z.to_nat n)) (lines content)).
Proof.
  intros Hbare. unfold adjust_headings.
  destruct (Z.leb_spec n 0) as [Hle|_]; [lia|].
  unfold sub. rewrite <- (unlines_lines content) at 1.
  apply scan_lines; [apply split_nonempty | now left | | exact Hbare].
  apply lines_no_newline.
Qed.
End ShiftLines.

Lemma shift_line_no_newline k l :
  forallb not_nl l = true -> forallb not_nl (shift_line k l) = true.
Proof.
  intros Hl. unfold shift_line. destruct (is_heading_line l); [|exact Hl].
  rewrite forallb_app, Hl, andb_true_r.
  apply forallb_forall. intros x Hx. apply repeat_spec in Hx. now subst.
Qed.

Lemma hash_run_repeat k l : hash_run (repeat HASH k ++ l) = k + hash_run l.
Proof. induction k; simpl; [reflexivity | now rewrite IHk]. Qed.

Lemma shift_line_shifted k l : line_shifted k l (shift_line k l).
Proof.
  unfold line_shifted, shift_line.
  destruct (is_heading_line l); [|reflexivity].
  rewrite hash_run_repeat. split; [lia|].
  rewrite skipn_app, repeat_length.
  rewrite skipn_all2 by (rewrite repeat_length; lia).
  simpl. f_equal. lia.
Qed.

(** ** The Rewriter *)

(** C8.  For every content and every shift amount less than or equal to
    zero, [adjust_headings] returns the content unchanged. *)
Theorem adjust_headings_nonpositive content n :
  (n <= 0)%Z -> adjust_headings content n = content.
Proof.
  intros Hn. unfold adjust_headings.
  destruct (Z.leb_spec n 0) as [_|Hlt]; [reflexivity | lia].
Qed.

(** A negative shift. *)
Lemma adjust_headings_nonpositive_witness :
  (-2 <= 0)%Z
  /\ adjust_headings (lit "# Title") (-2) = lit "# Title".
Proof.
  split; [lia | apply (adjust_headings_nonpositive (lit "# Title") (-2)); lia].
Defined.

(** C2, as the code has it.  For every content none of whose lines is a
    bare marker (a run of [#] followed by nothing but white space),
    [adjust_headings] with shift 3 lengthens by exactly 3 the [#] run of
    every line that begins with one or more [#] followed by white space,
    and leaves every other line as it is. *)
Theorem adjust_headings_shift3 content :
  forallb (fun l => negb (bare_marker l)) (lines content) = true ->
  Forall2 (line_shifted 3) (lines content) (lines (adjust_headings content 3)).
Proof.
  intros Hbare.
  rewrite (adjust_headings_lines 3 eq_refl content Hbare).
  change (Z.to_nat 3) with 3.
  pose proof (lines_no_newline content) as Hnl.
  pose proof (split_nonempty NL content) as Hne. fold (lines content) in Hne.
  rewrite lines_unlines.
  - clear Hbare Hne. induction Hnl as [|l ls _ _ IH]; simpl; constructor.
    + apply shift_line_shifted.
    + exact IH.
  - destruct (lines content); [easy | discriminate].
  - clear Hbare Hne. induction Hnl as [|l ls Hl _ IH]; simpl; constructor.
    + now apply shift_line_no_newline.
    + exact IH.
Qed.

(** A text with two headings, a [#] inside a line and a [#] without a
    space after it. *)
Lemma adjust_headings_shift3_witness :
  forallb (fun l => negb (bare_marker l)) (lines sample_text) = true
  /\ Forall2 (line_shifted 3) (lines sample_text)
             (lines (adjust_headings sample_text 3)).
Proof.
  split; [reflexivity | apply (adjust_headings_shift3 sample_text); reflexivity].
Defined.

(** C2, as stated, fails: the only line of ["# "] begins with [#] followed
    by white space, and it is returned unchanged. *)
Lemma adjust_headings_shift3_bare_marker :
  ~ Forall2 (line_shifted 3) (lines (lit "# "))
            (lines (adjust_headings (lit "# ") 3)).
Proof.
  intros H. vm_compute in H. inversion H as [|? ? ? ? Hl _]; subst.
  destruct Hl as [Hrun _]. discriminate Hrun.
Qed.

(** ** Order on strings and sorting *)

Lemma str_leb_refl a : str_leb a a = true.
Proof.
  induction a as [|x a IH]; simpl; [reflexivity|].
  now rewrite N.ltb_irrefl.
Qed.

Lemma str_leb_total a : forall b, str_leb a b = true \/ str_leb b a = true.
Proof.
  induction a as [|x a IH]; intros [|y b]; simpl; auto.
  destruct (N.ltb_spec x y), (N.ltb_spec y x); auto; lia.
Qed.

Lemma str_leb_antisym a : forall b,
  str_leb a b = true -> str_leb b a = true -> a = b.
Proof.
  induction a as [|x a IH]; intros [|y b]; simpl; try easy.
  destruct (N.ltb_spec x y), (N.ltb_spec y x); try easy; try lia.
  intros H1 H2. assert (x = y) by lia. subst. f_equal. now apply IH.
Qed.

Lemma str_leb_trans a : forall b c,
  str_leb a b = true -> str_leb b c = true -> str_leb a c = true.
Proof.
  induction a as [|x a IH]; intros [|y b] [|z c]; simpl; try easy.
  destruct (N.ltb_spec x y), (N.ltb_spec y x), (N.ltb_spec y z),
    (N.ltb_spec z y), (N.ltb_spec x z), (N.ltb_spec z x);
    try easy; try lia.
  apply IH.
Qed.

Lemma insert_perm x l : Permutation (insert x l) (x :: l).
Proof.
  induction l as [|y l IH]; simpl; [reflexivity|].
  destruct (str_leb x y); [reflexivity|].
  rewrite IH. apply perm_swap.
Qed.

Lemma sort_perm l : Permutation (sort l) l.
Proof.
  induction l as [|x l IH]; simpl; [reflexivity|].
  rewrite insert_perm. now constructor.
Qed.

Lemma insert_sorted x l :
  StronglySorted str_le l -> StronglySorted str_le (insert x l).
Proof.
  induction 1 as [|y l Hs IH Hy]; simpl.
  - constructor; constructor.
  - destruct (str_leb x y) eqn:E.
    + constructor; [now constructor|]. constructor; [exact E|].
      eapply Forall_impl; [|exact Hy]. intros z Hz.
      eapply str_leb_trans; eassumption.
    + constructor; [exact IH|].
      eapply Permutation_Forall.
      * symmetry. apply insert_perm.
      * constructor; [|exact Hy].
        destruct (str_leb_total x y) as [H|H]; [congruence | exact H].
Qed.

Lemma sort_sorted l : StronglySorted str_le (sort l).
Proof.
  induction l as [|x l IH]; simpl; [constructor | now apply insert_sorted].
Qed.

(** Two sorted lists with the same elements are the same list. *)
Lemma sorted_perm_eq l : forall l',
  StronglySorted str_le l -> StronglySorted str_le l' ->
  Permutation l l' -> l = l'.
Proof.
  induction l as [|x l IH]; intros l' Hs Hs' Hp.
  - apply Permutation_nil in Hp. now subst.
  - destruct l' as [|y l'].
    { symmetry in Hp. apply Permutation_nil in Hp. discriminate. }
    inversion Hs as [|? ? Hsl Hx]; subst.
    inversion Hs' as [|? ? Hsl' Hy]; subst.
    assert (x = y).
    { apply str_leb_antisym.
      - assert (Hin : In y (x :: l))
          by (eapply Permutation_in; [symmetry; exact Hp | now left]).
        destruct Hin as [->|Hin]; [apply str_leb_refl|].
        rewrite Forall_forall in Hx. now apply Hx.
      - assert (Hin : In x (y :: l'))
          by (eapply Permutation_in; [exact Hp | now left]).
        destruct Hin as [->|Hin]; [apply str_leb_refl|].
        rewrite Forall_forall in Hy. now apply Hy. }
    subst y. f_equal. apply IH; try assumption.
    now apply Permutation_cons_inv in Hp.
Qed.

Lemma sort_unique l l' : Permutation l l' -> sort l = sort l'.
Proof.
  intros Hp. apply sorted_perm_eq; try apply sort_sorted.
  rewrite !sort_perm. exact Hp.
Qed.

(** ** The Grouper *)

Lemma mem_In x l : mem x l = true <-> In x l.
Proof.
  unfold mem. rewrite existsb_exists. split.
  - intros (y & Hy & E). apply str_eqb_eq in E. now subst.
  - intros H. exists x. split; [exact H | apply str_eqb_refl].
Qed.

Lemma mem_false x l : mem x l = false <-> ~ In x l.
Proof.
  rewrite <- mem_In. destruct (mem x l); split; intros; congruence.
Qed.

Lemma dict_get_append k k' v d :
  dict_get k (dict_append k' v d)
  = if str_eqb k k' then dict_get k d ++ [v] else dict_get k d.
Proof.
  induction d as [|[k0 vs] d IH]; simpl.
  - now destruct (str_eqb k k').
  - destruct (str_eqb k' k0) eqn:E0; simpl.
    + apply str_eqb_eq in E0. subst k0.
      destruct (str_eqb k k'); reflexivity.
    + destruct (str_eqb k k0) eqn:E1; [|exact IH].
      apply str_eqb_eq in E1. subst k0.
      destruct (str_eqb k k') eqn:E2; [|reflexivity].
      apply str_eqb_eq in E2. subst k'. rewrite str_eqb_refl in E0.
      discriminate.
Qed.

Lemma keys_append k v d :
  keys (dict_append k v d) = if mem k (keys d) then keys d else keys d ++ [k].
Proof.
  unfold keys. induction d as [|[k0 vs] d IH]; simpl; [reflexivity|].
  destruct (str_eqb k k0) eqn:E; simpl; [reflexivity|].
  rewrite IH. now destruct (mem k (map fst d)).
Qed.

Section Sections.
Variable key : str -> str.

Lemma group_by_get files : forall d k,
  dict_get k (group_by key files d)
  = dict_get k d ++ filter (fun f => str_eqb k (key f)) files.
Proof.
  induction files as [|f files IH]; intros d k; simpl.
  - now rewrite app_nil_r.
  - unfold group_by in *. simpl. rewrite IH, dict_get_append.
    destruct (str_eqb k (key f)); [now rewrite <- app_assoc | reflexivity].
Qed.

Lemma group_by_keys_nodup files : forall d,
  NoDup (keys d) -> NoDup (keys (group_by key files d)).
Proof.
  induction files as [|f files IH]; intros d Hd; simpl; [exact Hd|].
  apply IH. rewrite keys_append.
  destruct (mem (key f) (keys d)) eqn:E; [exact Hd|].
  apply mem_false in E.
  apply NoDup_app; [exact Hd | repeat constructor; easy |].
  intros x Hx [<-|[]]. contradiction.
Qed.

Lemma group_by_keys_in files : forall d k,
  In k (keys (group_by key files d))
  <-> In k (keys d) \/ exists f, In f files /\ key f = k.
Proof.
  induction files as [|f files IH]; intros d k; simpl.
  - split; [now left | intros [H|(f & [] & _)]; exact H].
  - unfold group_by in *. simpl. rewrite IH, keys_append. split.
    + intros [H|(g & Hg & E)].
      * destruct (mem (key f) (keys d)); [now left|].
        apply in_app_or in H as [H|[<-|[]]]; [now left|].
        right. exists f. now split; [left|].
      * right. exists g. now split; [right|].
    + intros [H|(g & [<-|Hg] & E)].
      * left. destruct (mem (key f) (keys d)); [exact H|].
        apply in_or_app. now left.
      * left. subst k. destruct (mem (key f) (keys d)) eqn:Em.
        -- now apply mem_In.
        -- apply in_or_app. right. now left.
      * right. now exists g.
Qed.
End Sections.

(** ** Paths *)

Lemma str_join_cons sep x l :
  l <> [] -> str_join sep (x :: l) = x ++ sep ++ str_join sep l.
Proof. destruct l; [easy | reflexivity]. Qed.

Lemma str_join_snoc sep l d :
  l <> [] -> str_join sep (l ++ [d]) = str_join sep l ++ sep ++ d.
Proof.
  induction l as [|x l IH]; intros Hne; [easy|].
  destruct l as [|y l]; [reflexivity|].
  change ((x :: y :: l) ++ [d]) with (x :: ((y :: l) ++ [d])).
  rewrite (str_join_cons sep x ((y :: l) ++ [d])) by (simpl; discriminate).
  rewrite IH by discriminate.
  rewrite (str_join_cons sep x (y :: l)) by discriminate.
  now rewrite <- !app_assoc.
Qed.

Lemma split_app_sep c a : forall b,
  str_split c (a ++ c :: b) = str_split c a ++ str_split c b.
Proof.
  induction a as [|x a IH]; intros b; simpl.
  - now rewrite char_eqb_refl.
  - destruct (char_eqb x c); [now rewrite IH|].
    rewrite IH. pose proof (split_nonempty c a) as Hne.
    destruct (str_split c a); [easy | reflexivity].
Qed.

Lemma split_no_sep a :
  no_slash a = true -> str_split SLASH a = [a].
Proof.
  induction a as [|x a IH]; simpl; [reflexivity|].
  intros H. apply andb_true_iff in H as [Hx Ha].
  apply negb_true_iff in Hx. rewrite Hx, IH by exact Ha. reflexivity.
Qed.

Lemma split_join cs :
  cs <> [] -> forallb no_slash cs = true ->
  str_split SLASH (str_join Path.sep cs) = cs.
Proof.
  induction cs as [|x cs IH]; intros Hne Hall; [easy|].
  simpl in Hall. apply andb_true_iff in Hall as [Hx Hcs].
  destruct cs as [|y cs].
  - simpl. now apply split_no_sep.
  - rewrite str_join_cons by discriminate. unfold Path.sep at 1.
    change (x ++ [SLASH] ++ ?t) with (x ++ SLASH :: t).
    rewrite split_app_sep, split_no_sep by exact Hx.
    rewrite IH by (discriminate || exact Hcs). reflexivity.
Qed.

Lemma split_slashes n s :
  str_split SLASH (repeat SLASH n ++ s) = repeat [] n ++ str_split SLASH s.
Proof. induction n; simpl; [reflexivity | now rewrite IHn]. Qed.

Lemma endswith_snoc a z c : endswith (a ++ [z]) [c] = char_eqb z c.
Proof.
  unfold endswith. rewrite rev_app_distr. simpl. apply andb_true_r.
Qed.

Lemma good_name_parts n :
  good_name n = true ->
  n <> [] /\ no_slash n = true /\ n <> Path.curdir /\ n <> Path.pardir.
Proof.
  unfold good_name. intros H.
  apply andb_true_iff in H as [H H4]. apply andb_true_iff in H as [H H3].
  apply andb_true_iff in H as [H1 H2].
  apply negb_true_iff in H1, H3, H4. apply str_eqb_neq in H3, H4.
  repeat split; try assumption. now destruct n.
Qed.

Lemma good_names_no_slash cs :
  forallb good_name cs = true -> forallb no_slash cs = true.
Proof.
  induction cs as [|x cs IH]; simpl; [reflexivity|].
  intros H. apply andb_true_iff in H as [Hx Hcs].
  apply good_name_parts in Hx as (_ & -> & _). now apply IH.
Qed.

(** A good name ends with a character that is not a slash, and so does a
    joined list of good names. *)
Lemma good_name_last n :
  good_name n = true ->
  exists a z, n = a ++ [z] /\ char_eqb z SLASH = false.
Proof.
  intros H. apply good_name_parts in H as (Hne & Hns & _).
  destruct (exists_last Hne) as (a & z & ->). exists a, z. split; [reflexivity|].
  unfold no_slash in Hns. rewrite forallb_app in Hns.
  apply andb_true_iff in Hns as [_ Hz]. simpl in Hz.
  rewrite andb_true_r in Hz. now apply negb_true_iff in Hz.
Qed.

Lemma good_name_first n :
  good_name n = true ->
  exists x b, n = x :: b /\ char_eqb x SLASH = false.
Proof.
  intros H. apply good_name_parts in H as (Hne & Hns & _).
  destruct n as [|x b]; [easy|]. exists x, b. split; [reflexivity|].
  simpl in Hns. apply andb_true_iff in Hns as [Hx _].
  now apply negb_true_iff in Hx.
Qed.

Lemma join_good_last cs :
  cs <> [] -> forallb good_name cs = true ->
  exists a z, str_join Path.sep cs = a ++ [z] /\ char_eqb z SLASH = false.
Proof.
  intros Hne Hall. destruct (exists_last Hne) as (cs' & d & ->).
  rewrite forallb_app in Hall. apply andb_true_iff in Hall as [_ Hd].
  simpl in Hd. rewrite andb_true_r in Hd.
  destruct (good_name_last d Hd) as (a & z & -> & Hz).
  destruct cs' as [|x cs'].
  - exists a, z. now split.
  - rewrite str_join_snoc by discriminate.
    exists (str_join Path.sep (x :: cs') ++ Path.sep ++ a), z.
    split; [now rewrite <- !app_assoc | exact Hz].
Qed.

Lemma join_good_first cs :
  cs <> [] -> forallb good_name cs = true ->
  exists x b, str_join Path.sep cs = x :: b /\ char_eqb x SLASH = false.
Proof.
  intros Hne Hall. destruct cs as [|c cs]; [easy|].
  simpl in Hall. apply andb_true_iff in Hall as [Hc _].
  destruct (good_name_first c Hc) as (x & b & -> & Hx).
  destruct cs as [|c2 cs].
  - exists x, b. now split.
  - rewrite str_join_cons by discriminate.
    exists x, (b ++ Path.sep ++ str_join Path.sep (c2 :: cs)). now split.
Qed.

Lemma startswith_sep x b : startswith (x :: b) Path.sep = char_eqb x SLASH.
Proof. simpl. apply andb_true_r. Qed.

Lemma norm_step_good sl acc comp :
  good_name comp = true -> Path.norm_step sl acc comp = acc ++ [comp].
Proof.
  intros H. apply good_name_parts in H as (H1 & _ & H3 & H4).
  unfold Path.norm_step.
  replace (str_eqb comp []) with false by (symmetry; now apply str_eqb_neq).
  replace (str_eqb comp Path.curdir) with false
    by (symmetry; now apply str_eqb_neq).
  replace (str_eqb comp Path.pardir) with false
    by (symmetry; now apply str_eqb_neq).
  reflexivity.
Qed.

Lemma norm_steps_good sl cs : forall acc,
  forallb good_name cs = true ->
  fold_left (Path.norm_step sl) cs acc = acc ++ cs.
Proof.
  induction cs as [|c cs IH]; intros acc H; simpl.
  - now rewrite app_nil_r.
  - apply andb_true_iff in H as [Hc Hcs].
    rewrite norm_step_good, IH by assumption. now rewrite <- app_assoc.
Qed.

Lemma norm_steps_empty sl n acc :
  fold_left (Path.norm_step sl) (repeat [] n) acc = acc.
Proof. induction n; simpl; [reflexivity | exact IHn]. Qed.

Lemma common_prefix_len_app cs ds :
  Path.common_prefix_len cs (cs ++ ds) = length cs.
Proof.
  induction cs as [|c cs IH]; simpl.
  - now destruct ds.
  - now rewrite str_eqb_refl, IH.
Qed.

Lemma rfind1_no_slash n : no_slash n = true -> Path.rfind1 SLASH n = 0.
Proof.
  induction n as [|x n IH]; simpl; [reflexivity|].
  intros H. apply andb_true_iff in H as [Hx Hn].
  apply negb_true_iff in Hx. now rewrite IH, Hx.
Qed.

Lemma rfind1_last_slash a n :
  no_slash n = true -> Path.rfind1 SLASH (a ++ SLASH :: n) = S (length a).
Proof.
  intros Hn. induction a as [|x a IH]; simpl.
  - now rewrite rfind1_no_slash.
  - now rewrite IH.
Qed.


Lemma lstrip_slashes n s :
  lstrip SLASH (repeat SLASH n ++ s) = lstrip SLASH s.
Proof. induction n; simpl; [reflexivity | exact IHn]. Qed.

(** Goals that say that a list put together from good names holds good
    names only. *)
Ltac rewrite_good :=
  repeat match goal with
         | H : forallb good_name ?l = true
           |- context [forallb good_name ?l] => rewrite H
         | H : good_name ?x = true |- context [good_name ?x] => rewrite H
         end.

Ltac good_names :=
  rewrite ?forallb_app; rewrite_good; cbn [forallb]; rewrite_good;
  reflexivity.

Section RootPath.
Variable cwd : str.
Variable sl : nat.
Variable cs : list str.
Hypothesis sl_ok : sl = 1 \/ sl = 2.
Hypothesis cs_ok : forallb good_name cs = true.

Lemma root_path_nonempty : root_path sl cs <> [].
Proof. unfold root_path. destruct sl_ok as [-> | ->]; discriminate. Qed.

Lemma root_path_snoc d :
  good_name d = true ->
  forallb good_name (cs ++ [d]) = true.
Proof. intros Hd. rewrite forallb_app, cs_ok. simpl. now rewrite Hd. Qed.

Lemma initial_slashes_root : Path.initial_slashes (root_path sl cs) = sl.
Proof.
  unfold root_path.
  destruct cs as [|c cs'] eqn:Ecs.
  - destruct sl_ok as [-> | ->]; reflexivity.
  - destruct (join_good_first (c :: cs')) as (x & b & -> & Hx);
      [discriminate | exact cs_ok |].
    unfold Path.initial_slashes, Path.sep.
    destruct sl_ok as [-> | ->]; simpl; rewrite Hx; reflexivity.
Qed.

Lemma split_root :
  fold_left (Path.norm_step sl) (str_split SLASH (root_path sl cs)) [] = cs.
Proof.
  unfold root_path. rewrite split_slashes, fold_left_app, norm_steps_empty.
  destruct cs as [|c cs'] eqn:Ecs; [reflexivity|].
  rewrite split_join; [| discriminate | now apply good_names_no_slash].
  now rewrite norm_steps_good.
Qed.

Lemma normpath_root : Path.normpath (root_path sl cs) = root_path sl cs.
Proof.
  unfold Path.normpath. pose proof root_path_nonempty as Hne.
  rewrite initial_slashes_root, split_root. fold (root_path sl cs).
  destruct (root_path sl cs); [easy | reflexivity].
Qed.

Lemma isabs_root : Path.isabs (root_path sl cs) = true.
Proof. unfold root_path. destruct sl_ok as [-> | ->]; reflexivity. Qed.

Lemma abspath_root : Path.abspath cwd (root_path sl cs) = root_path sl cs.
Proof. unfold Path.abspath. rewrite isabs_root. apply normpath_root. Qed.

Lemma tail_list_root : Path.tail_list (root_path sl cs) = cs.
Proof.
  unfold Path.tail_list, root_path. rewrite lstrip_slashes.
  destruct cs as [|c cs'] eqn:Ecs; [reflexivity|].
  destruct (join_good_first (c :: cs')) as (x & b & E & Hx);
    [discriminate | exact cs_ok |].
  rewrite E. simpl lstrip. rewrite Hx. simpl Path.is_nil. cbv iota.
  rewrite <- E. apply split_join; [discriminate|].
  now apply good_names_no_slash.
Qed.

Lemma join_root d :
  good_name d = true ->
  Path.join (root_path sl cs) d = root_path sl (cs ++ [d]).
Proof.
  intros Hd. unfold Path.join.
  destruct (good_name_first d Hd) as (x & b & Ed & Hx).
  rewrite Ed at 1. rewrite startswith_sep, Hx.
  unfold root_path, Path.sep. destruct cs as [|c cs'] eqn:Ecs.
  - simpl str_join. rewrite app_nil_r.
    assert (E : repeat SLASH sl = repeat SLASH (sl - 1) ++ [SLASH])
      by (destruct sl_ok as [-> | ->]; reflexivity).
    rewrite E at 1 2. rewrite endswith_snoc, char_eqb_refl, orb_true_r.
    reflexivity.
  - destruct (join_good_last (c :: cs')) as (a & z & E & Hz);
      [discriminate | exact cs_ok |].
    rewrite E at 1 2. rewrite app_assoc, endswith_snoc, Hz.
    replace (Path.is_nil _) with false
      by (destruct (repeat SLASH sl ++ a); reflexivity).
    simpl orb. cbv iota.
    rewrite str_join_snoc by discriminate. now rewrite <- !app_assoc.
Qed.
End RootPath.

Lemma root_path_inj sl cs cs' :
  sl = 1 \/ sl = 2 ->
  forallb good_name cs = true -> forallb good_name cs' = true ->
  root_path sl cs = root_path sl cs' -> cs = cs'.
Proof.
  intros Hsl H H' E.
  rewrite <- (tail_list_root sl cs H), <- (tail_list_root sl cs' H').
  now rewrite E.
Qed.

Lemma relpath_under cwd sl cs ds :
  sl = 1 \/ sl = 2 ->
  forallb good_name cs = true -> forallb good_name ds = true ->
  Path.relpath cwd (root_path sl (cs ++ ds)) (root_path sl cs)
  = if Path.is_nil ds then Path.curdir else str_join Path.sep ds.
Proof.
  intros Hsl Hcs Hds.
  assert (Hall : forallb good_name (cs ++ ds) = true)
    by good_names.
  unfold Path.relpath.
  rewrite !abspath_root, !tail_list_root by assumption.
  rewrite common_prefix_len_app, Nat.sub_diag. simpl repeat. simpl app.
  rewrite skipn_app, skipn_all, Nat.sub_diag. reflexivity.
Qed.

Lemma firstn_through_slash a n :
  firstn (S (length a)) (a ++ SLASH :: n) = a ++ [SLASH].
Proof.
  change (a ++ SLASH :: n) with (a ++ [SLASH] ++ n). rewrite app_assoc.
  replace (S (length a)) with (length (a ++ [SLASH]))
    by (rewrite length_app; simpl; lia).
  rewrite firstn_app, Nat.sub_diag, firstn_all. simpl. apply app_nil_r.
Qed.

Lemma rstrip_slash_after a z :
  char_eqb z SLASH = false ->
  rstrip SLASH ((a ++ [z]) ++ [SLASH]) = a ++ [z].
Proof.
  intros Hz. unfold rstrip. rewrite !rev_app_distr. simpl.
  rewrite Hz. change (z :: rev a) with ([z] ++ rev a).
  now rewrite rev_app_distr, rev_involutive.
Qed.

Lemma not_all_slashes a z k :
  char_eqb z SLASH = false ->
  str_eqb ((a ++ [z]) ++ [SLASH]) (repeat SLASH k) = false.
Proof.
  intros Hz. apply str_eqb_neq. intros E.
  assert (Hin : In z (repeat SLASH k)).
  { rewrite <- E. apply in_or_app. left. apply in_or_app. right. now left. }
  apply repeat_spec in Hin. subst z. now rewrite char_eqb_refl in Hz.
Qed.

Lemma dirname_joined ds n :
  forallb good_name ds = true -> good_name n = true ->
  Path.dirname (str_join Path.sep (ds ++ [n])) = str_join Path.sep ds.
Proof.
  intros Hds Hn. apply good_name_parts in Hn as (_ & Hns & _).
  unfold Path.dirname. destruct ds as [|d ds].
  - simpl. now rewrite rfind1_no_slash.
  - rewrite str_join_snoc by discriminate.
    destruct (join_good_last (d :: ds)) as (a & z & E & Hz);
      [discriminate | exact Hds |].
    rewrite E. unfold Path.sep. cbn [app].
    rewrite rfind1_last_slash, firstn_through_slash by exact Hns.
    rewrite not_all_slashes by exact Hz.
    replace (Path.is_nil _) with false
      by (destruct a; reflexivity).
    simpl. now apply rstrip_slash_after.
Qed.



(** ** The traversal *)

Lemma tree_induction (P : tree -> Prop) :
  (forall files dirs, Forall (fun e => P (snd e)) dirs -> P (Dir files dirs)) ->
  forall t, P t.
Proof.
  intros H. fix IH 1. intros [files dirs]. apply H.
  induction dirs as [|[d sub] dirs IHd]; constructor; [apply IH | exact IHd].
Qed.

Lemma walk_unfold prune top files dirs :
  Os.walk prune top (Dir files dirs)
  = (top, prune top (map fst dirs), files)
    :: walk_children prune top (prune top (map fst dirs)) dirs.
Proof.
  simpl. f_equal. unfold walk_children.
  generalize (prune top (map fst dirs)) as kept. intros kept.
  induction dirs as [|[d sub] dirs IH]; simpl; [reflexivity | now rewrite IH].
Qed.

Lemma wf_tree_unfold files dirs :
  wf_tree (Dir files dirs) = true ->
  forallb good_name files = true
  /\ forallb good_name (map fst dirs) = true
  /\ Forall (fun e => wf_tree (snd e) = true) dirs.
Proof.
  simpl. intros H. apply andb_true_iff in H as [H H3].
  apply andb_true_iff in H as [H1 H2]. repeat split; try assumption.
  clear H1 H2. induction dirs as [|[d sub] dirs IH]; constructor.
  - apply andb_true_iff in H3 as [H _]. exact H.
  - apply IH. now apply andb_true_iff in H3 as [_ H].
Qed.

Lemma startswith_app s p : startswith s p = true <-> exists r, s = p ++ r.
Proof.
  revert s. induction p as [|y p IH]; intros s; simpl.
  - split; [now exists s | reflexivity].
  - destruct s as [|x s].
    + split; [discriminate | intros (r & E); discriminate].
    + rewrite andb_true_iff, IH, char_eqb_eq. split.
      * intros (-> & r & ->). now exists r.
      * intros (r & E). injection E as -> ->. split; [reflexivity | now exists r].
Qed.

Lemma root_path_below sl a b s :
  sl = 1 \/ sl = 2 ->
  forallb good_name a = true -> forallb good_name b = true -> b <> [] ->
  root_path sl a = (root_path sl b ++ Path.sep) ++ s ->
  exists c, c <> [] /\ a = b ++ c.
Proof.
  intros Hsl Ha Hb Hne E.
  apply (f_equal (str_split SLASH)) in E.
  unfold Path.sep in E. rewrite <- app_assoc in E. simpl app in E.
  rewrite split_app_sep in E. unfold root_path in E.
  rewrite !split_slashes in E.
  rewrite (split_join b Hne (good_names_no_slash b Hb)) in E.
  rewrite <- app_assoc in E. apply app_inv_head in E.
  pose proof (split_nonempty SLASH s) as Hs.
  destruct a as [|x a].
  - simpl in E. destruct b as [|y b]; [easy|]. simpl in E.
    injection E as _ E. destruct b; destruct (str_split SLASH s);
      try easy; discriminate.
  - rewrite split_join in E;
      [| discriminate | now apply good_names_no_slash].
    now exists (str_split SLASH s).
Qed.

Section Walk.
Variable cwd : str.
Variable exclude : list str.
Variable sl : nat.
Hypothesis sl_ok : sl = 1 \/ sl = 2.

(** Where the traversal goes: every yielded root is the start directory
    followed by good names, through directories that are not excluded. *)
Lemma walk_yields t : forall bs y,
  wf_tree t = true -> forallb good_name bs = true ->
  In y (Os.walk (prune_dirs cwd exclude) (root_path sl bs) t) ->
  exists ds,
    forallb good_name ds = true
    /\ yield_root y = root_path sl (bs ++ ds)
    /\ forallb good_name (yield_dirs y) = true
    /\ forallb good_name (yield_files y) = true
    /\ unpruned exclude sl bs ds.
Proof.
  induction t as [files dirs IH] using tree_induction.
  intros bs y Hwf Hbs Hy.
  apply wf_tree_unfold in Hwf as (Hfiles & Hnames & Hsubs).
  rewrite walk_unfold in Hy. destruct Hy as [<- | Hy].
  - exists []. rewrite app_nil_r. repeat split; try assumption.
    + unfold yield_dirs, prune_dirs. cbn [fst snd].
      apply forallb_forall. intros d Hd. apply filter_In in Hd as [Hd _].
      rewrite forallb_forall in Hnames. now apply Hnames.
    + intros ds1 d ds2 E. now destruct ds1.
  - unfold walk_children in Hy. apply in_flat_map in Hy as ([d sub] & He & Hy).
    cbn [fst snd] in Hy.
    destruct (mem d ((prune_dirs cwd exclude) (root_path sl bs) (map fst dirs))) eqn:Ekept;
      [|easy].
    assert (Hd : good_name d = true).
    { rewrite forallb_forall in Hnames. apply Hnames.
      apply in_map_iff. now exists (d, sub). }
    rewrite (join_root sl bs sl_ok Hbs d Hd) in Hy.
    rewrite Forall_forall in IH, Hsubs.
    destruct (IH (d, sub) He (bs ++ [d]) y (Hsubs _ He)
                 (root_path_snoc bs Hbs d Hd) Hy)
      as (ds & Hds & Hroot & Hdirs & Hfs & Hchain).
    exists (d :: ds). repeat split.
    + simpl. now rewrite Hd, Hds.
    + rewrite Hroot. now rewrite <- app_assoc.
    + exact Hdirs.
    + exact Hfs.
    + intros ds1 d' ds2 E. destruct ds1 as [|x ds1].
      * injection E as <- _. simpl app.
        unfold prune_dirs in Ekept.
        apply mem_In, filter_In in Ekept as [_ Hk].
        apply negb_true_iff, mem_false in Hk.
        unfold abspath in Hk.
        rewrite (join_root sl bs sl_ok Hbs d Hd) in Hk.
        rewrite abspath_root in Hk;
          [exact Hk | exact sl_ok | now apply root_path_snoc].
      * injection E as <- E.
        specialize (Hchain ds1 d' ds2 E).
        now rewrite <- app_assoc in Hchain.
Qed.
End Walk.

(** ** [abspath] always gives a normalised absolute path *)

Lemma split_fields_no_slash s : forallb no_slash (str_split SLASH s) = true.
Proof.
  induction s as [|x s IH]; simpl; [reflexivity|].
  destruct (char_eqb x SLASH) eqn:E; simpl; [exact IH|].
  destruct (str_split SLASH s) as [|f fs]; simpl in *.
  - now rewrite E.
  - now rewrite E.
Qed.

Lemma forallb_removelast {A : Type} (f : A -> bool) l :
  forallb f l = true -> forallb f (removelast l) = true.
Proof.
  induction l as [|x l IH]; [easy|]. intros H. simpl in H.
  apply andb_true_iff in H as [Hx Hl].
  destruct l as [|y l]; [reflexivity|].
  change (removelast (x :: y :: l)) with (x :: removelast (y :: l)).
  change (forallb f (x :: removelast (y :: l)))
    with (f x && forallb f (removelast (y :: l))).
  now rewrite Hx, IH.
Qed.

Lemma norm_step_keeps_good sl acc comp :
  sl <> 0 -> no_slash comp = true ->
  forallb good_name acc = true ->
  forallb good_name (Path.norm_step sl acc comp) = true.
Proof.
  intros Hsl Hns Hacc. unfold Path.norm_step.
  destruct (str_eqb comp []) eqn:E1; [exact Hacc|].
  destruct (str_eqb comp Path.curdir) eqn:E2; [exact Hacc|].
  simpl orb. cbv iota.
  destruct (str_eqb comp Path.pardir) eqn:E3; simpl negb; simpl orb.
  - replace (sl =? 0) with false by (symmetry; now apply Nat.eqb_neq).
    simpl andb. simpl orb.
    destruct (negb (Path.is_nil acc) && str_eqb (last acc []) Path.pardir)
      eqn:E4.
    + apply andb_true_iff in E4 as [Hne Hlast].
      apply str_eqb_eq in Hlast.
      destruct acc as [|a acc]; [discriminate Hne|].
      destruct (exists_last (l := a :: acc)) as (acc' & z & Ez);
        [discriminate|].
      rewrite Ez, last_last in Hlast. subst z. rewrite Ez, forallb_app in Hacc.
      apply andb_true_iff in Hacc as [_ Hz]. discriminate Hz.
    + now apply forallb_removelast.
  - cbv iota. rewrite forallb_app, Hacc. simpl. rewrite andb_true_r.
    unfold good_name. rewrite Hns, E2, E3.
    destruct comp; [discriminate E1 | reflexivity].
Qed.

Lemma norm_steps_keep_good sl comps : forall acc,
  sl <> 0 -> forallb no_slash comps = true ->
  forallb good_name acc = true ->
  forallb good_name (fold_left (Path.norm_step sl) comps acc) = true.
Proof.
  induction comps as [|c comps IH]; intros acc Hsl Hns Hacc; [exact Hacc|].
  simpl in *. apply andb_true_iff in Hns as [Hc Hcs].
  apply IH; [exact Hsl | exact Hcs | now apply norm_step_keeps_good].
Qed.

Lemma initial_slashes_abs p :
  Path.isabs p = true ->
  Path.initial_slashes p = 1 \/ Path.initial_slashes p = 2.
Proof.
  unfold Path.isabs, Path.initial_slashes. intros ->.
  destruct (_ && _); [now right | now left].
Qed.

Lemma normpath_abs p :
  Path.isabs p = true ->
  exists sl cs,
    (sl = 1 \/ sl = 2) /\ forallb good_name cs = true
    /\ Path.normpath p = root_path sl cs.
Proof.
  intros Habs. pose proof (initial_slashes_abs p Habs) as Hsl.
  exists (Path.initial_slashes p),
    (fold_left (Path.norm_step (Path.initial_slashes p)) (str_split SLASH p) []).
  split; [exact Hsl|]. split.
  - apply norm_steps_keep_good;
      [destruct Hsl; lia | apply split_fields_no_slash | reflexivity].
  - unfold Path.normpath. destruct p as [|x p]; [discriminate Habs|].
    cbn [Path.is_nil]. cbv iota. fold (root_path (Path.initial_slashes (x :: p))
      (fold_left (Path.norm_step (Path.initial_slashes (x :: p)))
                 (str_split SLASH (x :: p)) [])).
    unfold root_path at 1.
    destruct Hsl as [-> | ->]; reflexivity.
Qed.

Lemma join_abs cwd p :
  Path.isabs cwd = true -> Path.isabs (Path.join cwd p) = true.
Proof.
  unfold Path.isabs, Path.join. intros Hc.
  destruct (startswith p Path.sep) eqn:Ep; [exact Ep|].
  destruct cwd as [|x cwd]; [discriminate Hc|].
  destruct (_ || _); simpl in *; exact Hc.
Qed.

Lemma abspath_shape cwd p :
  Path.isabs cwd = true ->
  exists sl cs,
    (sl = 1 \/ sl = 2) /\ forallb good_name cs = true
    /\ Path.abspath cwd p = root_path sl cs.
Proof.
  intros Hc. unfold Path.abspath. apply normpath_abs.
  destruct (Path.isabs p) eqn:Ep; [exact Ep | now apply join_abs].
Qed.

(** ** The Scanner *)

Lemma in_sort x l : In x (sort l) <-> In x l.
Proof.
  split; apply Permutation_in; [apply sort_perm | symmetry; apply sort_perm].
Qed.

Lemma in_scan cwd fs directory output_file exclude p :
  In p (scan cwd fs directory output_file exclude)
  <-> exists y file,
        In y (Os.walk (prune_dirs cwd exclude) directory fs)
        /\ In file (yield_files y)
        /\ is_candidate cwd exclude output_file (yield_root y) file = true
        /\ p = Path.join (yield_root y) file.
Proof.
  unfold scan. rewrite in_flat_map. split.
  - intros ([[root dirs] files] & Hy & Hp). unfold found_in in Hp.
    apply in_map_iff in Hp as (file & <- & Hf).
    apply filter_In in Hf as [Hf Hc].
    exists (root, dirs, files), file. now repeat split.
  - intros ([[root dirs] files] & file & Hy & Hf & Hc & ->).
    exists (root, dirs, files). split; [exact Hy|].
    unfold found_in. apply in_map. apply filter_In. now split.
Qed.

Lemma md_files_scan cwd fs read directory output_file exclude :
  md_files (aggregate_markdown_files cwd fs read directory output_file exclude)
  = sort (scan cwd fs (abspath cwd directory) output_file
               (resolve_exclude cwd (abspath cwd directory) exclude)).
Proof. reflexivity. Qed.

Section Scanner.
Variable cwd : str.
Variable fs : tree.
Variable read : str -> read_result.
Variables directory output_file : str.
Variable exclude : list str.
Hypothesis cwd_abs : Path.isabs cwd = true.
Hypothesis fs_wf : wf_tree fs = true.

(** The path of a file the traversal lists is normalised, absolute, and
    ends in the file's name. *)
Lemma listed_file_path ex y file :
  In y (visited cwd fs directory ex) -> In file (yield_files y) ->
  exists sl cs ds,
    (sl = 1 \/ sl = 2)
    /\ forallb good_name cs = true
    /\ forallb good_name (ds ++ [file]) = true
    /\ abspath cwd directory = root_path sl cs
    /\ yield_root y = root_path sl (cs ++ ds)
    /\ Path.join (yield_root y) file = root_path sl (cs ++ ds ++ [file])
    /\ unpruned (resolve_exclude cwd (abspath cwd directory) ex) sl cs ds.
Proof.
  intros Hy Hf. unfold visited in Hy.
  destruct (abspath_shape cwd directory cwd_abs) as (sl & cs & Hsl & Hcs & E).
  unfold abspath in *. rewrite E in Hy.
  destruct (walk_yields cwd _ sl Hsl fs cs y fs_wf Hcs Hy)
    as (ds & Hds & Hroot & _ & Hfiles & Hchain).
  assert (Hfile : good_name file = true)
    by (rewrite forallb_forall in Hfiles; now apply Hfiles).
  exists sl, cs, ds. rewrite E. repeat split; try assumption.
  - good_names.
  - rewrite Hroot, join_root, <- app_assoc; try assumption; [reflexivity|].
    good_names.
Qed.


End Scanner.

(** *** Which directories the traversal visits *)

Lemma root_path_longer sl cs ds d :
  sl = 1 \/ sl = 2 ->
  forallb good_name cs = true -> forallb good_name ds = true ->
  good_name d = true ->
  root_path sl (cs ++ ds ++ [d]) <> root_path sl cs.
Proof.
  intros Hsl Hcs Hds Hd E. apply root_path_inj in E; try assumption.
  - apply (f_equal (@length str)) in E. rewrite !length_app in E.
    simpl in E. lia.
  - good_names.
Qed.




Section Complete.
Variable cwd : str.
Variable exclude : list str.
Variable sl : nat.
Hypothesis sl_ok : sl = 1 \/ sl = 2.

End Complete.





Section Pruning.
Variable cwd : str.
Variable fs : tree.
Variable read : str -> read_result.
Variables directory output_file : str.
Variable exclude : list str.
Hypothesis cwd_abs : Path.isabs cwd = true.
Hypothesis fs_wf : wf_tree fs = true.

(** A path reached through directories that are not excluded is neither
    an excluded directory below the start nor below one. *)
Lemma unpruned_not_below ex sl cs ds e :
  sl = 1 \/ sl = 2 ->
  forallb good_name cs = true -> forallb good_name ds = true ->
  forallb good_name e = true -> e <> [] ->
  unpruned ex sl cs ds ->
  In (root_path sl (cs ++ e)) ex ->
  forall tail, ds <> e ++ tail.
Proof.
  intros Hsl Hcs Hds He Hne Hchain Hin tail ->.
  destruct (exists_last Hne) as (e1 & d & ->).
  apply (Hchain e1 d tail); [now rewrite <- app_assoc | exact Hin].
Qed.

Lemma root_path_not_below sl cs ds e :
  sl = 1 \/ sl = 2 ->
  forallb good_name cs = true -> forallb good_name ds = true ->
  forallb good_name e = true -> e <> [] ->
  (forall tail, tail <> [] -> ds <> e ++ tail) ->
  below (root_path sl (cs ++ e)) (root_path sl (cs ++ ds)) = false.
Proof.
  intros Hsl Hcs Hds He Hne Hno.
  assert (Hcds : forallb good_name (cs ++ ds) = true)
    by good_names.
  assert (Hce : forallb good_name (cs ++ e) = true)
    by good_names.
  unfold below. destruct (startswith _ _) eqn:Es; [|reflexivity].
  apply startswith_app in Es as (s & Es).
  apply root_path_below in Es as (c & Hc & Ec); try assumption.
  - rewrite <- app_assoc in Ec. apply app_inv_head in Ec.
    now apply Hno in Ec.
  - destruct cs; destruct e; easy.
Qed.

(** C4, as the code has it.  For every directory of the tree other than
    the root whose absolute path is in the exclusion set, the traversal
    never comes to that directory or to anything below it, and no
    candidate file lies below it. *)
Theorem excluded_directory_pruned y0 d :
  In y0 (all_directories cwd fs directory) -> In d (yield_dirs y0) ->
  let excluded_dir := abspath cwd (Path.join (yield_root y0) d) in
  In excluded_dir (resolve_exclude cwd (abspath cwd directory) exclude) ->
  (forall y, In y (visited cwd fs directory exclude) ->
             yield_root y <> excluded_dir
             /\ below excluded_dir (yield_root y) = false)
  /\ (forall f,
        In f (md_files (aggregate_markdown_files
                          cwd fs read directory output_file exclude)) ->
        below excluded_dir f = false).
Proof.
  intros Hy0 Hd E Hin.
  destruct (abspath_shape cwd directory cwd_abs) as (sl & cs & Hsl & Hcs & ED).
  unfold all_directories, visited in Hy0. unfold abspath in *.
  rewrite ED in Hy0, Hin.
  destruct (walk_yields cwd _ sl Hsl fs cs y0 fs_wf Hcs Hy0)
    as (ds0 & Hds0 & Hroot0 & Hdirs0 & _ & _).
  assert (Hgd : good_name d = true)
    by (rewrite forallb_forall in Hdirs0; now apply Hdirs0).
  assert (Hcds0 : forallb good_name (cs ++ ds0) = true)
    by good_names.
  assert (Hed : forallb good_name (ds0 ++ [d]) = true)
    by good_names.
  assert (EE : E = root_path sl (cs ++ ds0 ++ [d])).
  { unfold E. rewrite Hroot0, join_root by assumption.
    rewrite abspath_root, <- app_assoc;
      [reflexivity | exact Hsl | now apply root_path_snoc]. }
  rewrite EE in *. clear EE.
  assert (Hne : ds0 ++ [d] <> []) by (destruct ds0; discriminate).
  assert (Hvisited : forall y,
    In y (visited cwd fs directory exclude) ->
    exists ds, forallb good_name ds = true
               /\ yield_root y = root_path sl (cs ++ ds)
               /\ forallb good_name (yield_files y) = true
               /\ forall tail, ds <> (ds0 ++ [d]) ++ tail).
  { intros y Hy. unfold visited in Hy. unfold abspath in Hy.
    rewrite ED in Hy.
    destruct (walk_yields cwd _ sl Hsl fs cs y fs_wf Hcs Hy)
      as (ds & Hds & Hroot & _ & Hfiles & Hchain).
    exists ds. repeat split; try assumption.
    now apply (unpruned_not_below
                 (resolve_exclude cwd (root_path sl cs) exclude)
                 sl cs ds (ds0 ++ [d])). }
  split.
  - intros y Hy. destruct (Hvisited y Hy) as (ds & Hds & -> & _ & Hno).
    split.
    + intros E'. apply root_path_inj in E'; try assumption.
      * apply app_inv_head in E'. apply (Hno []). now rewrite app_nil_r.
      * good_names.
      * good_names.
    + apply root_path_not_below; try assumption. intros tail _. apply Hno.
  - intros f Hf. rewrite md_files_scan, in_sort, in_scan in Hf.
    destruct Hf as (y & file & Hy & Hfile & _ & ->).
    destruct (Hvisited y Hy) as (ds & Hds & Hroot & Hfiles & Hno).
    assert (Hgf : good_name file = true)
      by (rewrite forallb_forall in Hfiles; now apply Hfiles).
    rewrite Hroot, join_root, <- app_assoc; try assumption;
      [| good_names].
    apply root_path_not_below; try assumption.
    + good_names.
    + intros tail Htail Etail.
      destruct (exists_last Htail) as (tail' & z & ->).
      rewrite app_assoc in Etail. apply app_inj_tail in Etail as [Etail _].
      now apply Hno in Etail.
Qed.
End Pruning.

(** The second scenario of the specification: [skip] is excluded. *)
Lemma excluded_directory_pruned_witness :
  let y0 := (lit "/r", [lit "skip"], [lit "x.md"]) in
  let excluded_dir :=
    abspath sample_cwd (Path.join (yield_root y0) (lit "skip")) in
  Path.isabs sample_cwd = true /\ wf_tree skip_tree = true
  /\ In y0 (all_directories sample_cwd skip_tree (lit "."))
  /\ In (lit "skip") (yield_dirs y0)
  /\ In excluded_dir
        (resolve_exclude sample_cwd (abspath sample_cwd (lit ".")) [lit "skip"])
  /\ (forall y, In y (visited sample_cwd skip_tree (lit ".") [lit "skip"]) ->
                yield_root y <> excluded_dir
                /\ below excluded_dir (yield_root y) = false)
  /\ (forall f, In f (md_files (sample_run skip_tree [lit "skip"])) ->
                below excluded_dir f = false).
Proof.
  intros y0 excluded_dir.
  split; [reflexivity|]. split; [reflexivity|].
  split; [now left|]. split; [now left|]. split; [now left|].
  apply (excluded_directory_pruned
           sample_cwd skip_tree sample_read (lit ".") (lit "out.md")
           [lit "skip"] eq_refl eq_refl y0 (lit "skip")); now left.
Defined.

(** C4, as stated, fails for the root: with [.] in the exclusion list the
    root's absolute path is in the exclusion set, and [a.md], which lies
    below it, is a candidate. *)
Lemma excluded_root_not_pruned :
  ~ (forall y0,
       In y0 (all_directories sample_cwd flat_tree (lit ".")) ->
       In (yield_root y0)
          (resolve_exclude sample_cwd (abspath sample_cwd (lit "."))
                           [lit "."]) ->
       forall f, In f (md_files (sample_run flat_tree [lit "."])) ->
                 below (yield_root y0) f = false).
Proof.
  intros H.
  specialize (H (lit "/r", [], [lit "a.md"]) (or_introl eq_refl)
                (or_introl eq_refl) (lit "/r/a.md") (or_introl eq_refl)).
  discriminate H.
Qed.

(** ** Excluding the root itself *)

Lemma mem_without x d ex1 ex2 :
  x <> d -> mem x (ex1 ++ d :: ex2) = mem x (ex1 ++ ex2).
Proof.
  intros Hx. unfold mem. rewrite !existsb_app. simpl.
  replace (str_eqb x d) with false by (symmetry; now apply str_eqb_neq).
  reflexivity.
Qed.

Lemma flat_map_ext_on {A B : Type} (f g : A -> list B) l :
  (forall a, In a l -> f a = g a) -> flat_map f l = flat_map g l.
Proof.
  induction l as [|a l IH]; intros H; simpl; [reflexivity|].
  rewrite (H a) by now left. f_equal. apply IH. intros b Hb. apply H. now right.
Qed.

Section ExcludeRoot.
Variable cwd : str.
Variable sl : nat.
Variable cs : list str.
Variables ex1 ex2 : list str.
Hypothesis sl_ok : sl = 1 \/ sl = 2.
Hypothesis cs_ok : forallb good_name cs = true.

Lemma mem_below_root ds d :
  forallb good_name ds = true -> good_name d = true ->
  mem (root_path sl (cs ++ ds ++ [d])) (ex1 ++ root_path sl cs :: ex2)
  = mem (root_path sl (cs ++ ds ++ [d])) (ex1 ++ ex2).
Proof.
  intros Hds Hd. apply mem_without. now apply root_path_longer.
Qed.

Lemma walk_exclude_root t : forall ds,
  wf_tree t = true -> forallb good_name ds = true ->
  Os.walk (prune_dirs cwd (ex1 ++ root_path sl cs :: ex2)) (root_path sl (cs ++ ds)) t
  = Os.walk (prune_dirs cwd (ex1 ++ ex2)) (root_path sl (cs ++ ds)) t.
Proof.
  induction t as [files dirs IH] using tree_induction.
  intros ds Hwf Hds.
  apply wf_tree_unfold in Hwf as (Hfiles & Hnames & Hsubs).
  assert (Hcds : forallb good_name (cs ++ ds) = true)
    by now rewrite forallb_app, cs_ok, Hds.
  assert (Hprune :
    prune_dirs cwd (ex1 ++ root_path sl cs :: ex2) (root_path sl (cs ++ ds)) (map fst dirs)
    = prune_dirs cwd (ex1 ++ ex2) (root_path sl (cs ++ ds)) (map fst dirs)).
  { unfold prune_dirs. apply filter_ext_in. intros d Hd.
    assert (Hgd : good_name d = true)
      by (rewrite forallb_forall in Hnames; now apply Hnames).
    unfold abspath. rewrite join_root by assumption.
    rewrite abspath_root;
      [| exact sl_ok | now apply root_path_snoc].
    rewrite <- app_assoc. f_equal. now apply mem_below_root. }
  rewrite !walk_unfold, Hprune. f_equal.
  unfold walk_children. apply flat_map_ext_on. intros [d sub] He.
  cbn [fst snd]. destruct (mem d _); [|reflexivity].
  assert (Hgd : good_name d = true).
  { rewrite forallb_forall in Hnames. apply Hnames.
    apply in_map_iff. now exists (d, sub). }
  rewrite join_root, <- app_assoc by assumption.
  rewrite Forall_forall in IH, Hsubs.
  apply (IH (d, sub) He (ds ++ [d])).
  - now apply (Hsubs (d, sub)).
  - good_names.
Qed.

Lemma scan_exclude_root fs output_file :
  wf_tree fs = true ->
  scan cwd fs (root_path sl cs) output_file (ex1 ++ root_path sl cs :: ex2)
  = scan cwd fs (root_path sl cs) output_file (ex1 ++ ex2).
Proof.
  intros Hwf. unfold scan.
  pose proof (walk_exclude_root fs [] Hwf eq_refl) as Hwalk.
  rewrite app_nil_r in Hwalk. rewrite Hwalk.
  apply flat_map_ext_on. intros [[root dirs] files] Hy.
  destruct (walk_yields cwd (ex1 ++ ex2) sl sl_ok fs cs _ Hwf cs_ok Hy)
    as (ds & Hds & Hroot & _ & Hfiles & _).
  unfold yield_root, yield_files in *. cbn [fst snd] in *. subst root.
  unfold found_in. f_equal. apply filter_ext_in. intros file Hf.
  assert (Hgf : good_name file = true)
    by (rewrite forallb_forall in Hfiles; now apply Hfiles).
  unfold is_candidate. f_equal.
  rewrite join_root, <- app_assoc; try assumption;
    [| now rewrite forallb_app, cs_ok, Hds].
  now rewrite mem_below_root.
Qed.
End ExcludeRoot.

(** [.] in the exclusion list resolves to the root itself. *)
Lemma resolve_dot cwd sl cs :
  sl = 1 \/ sl = 2 -> forallb good_name cs = true ->
  Path.abspath cwd (Path.join (root_path sl cs) Path.curdir) = root_path sl cs.
Proof.
  intros Hsl Hcs.
  assert (Ejoin : exists s,
    Path.join (root_path sl cs) Path.curdir = root_path sl cs ++ s
    /\ (s = Path.curdir /\ cs = [] \/ s = SLASH :: Path.curdir /\ cs <> [])).
  { unfold Path.join. change (startswith Path.curdir Path.sep) with false.
    cbv iota. unfold root_path, Path.sep. destruct cs as [|c cs'] eqn:Ecs.
    - exists Path.curdir. split; [|now left].
      simpl str_join. rewrite app_nil_r.
      destruct Hsl as [-> | ->]; reflexivity.
    - destruct (join_good_last (c :: cs')) as (a & z & E & Hz);
        [discriminate | exact Hcs |].
      exists (SLASH :: Path.curdir). split; [|now right].
      unfold Path.sep in E. rewrite E, app_assoc, endswith_snoc, Hz.
      replace (Path.is_nil _) with false
        by (destruct (repeat SLASH sl ++ a); reflexivity).
      reflexivity. }
  destruct Ejoin as (s & Ej & Hs). rewrite Ej.
  unfold Path.abspath.
  replace (Path.isabs (root_path sl cs ++ s)) with true
    by (unfold root_path; destruct Hsl as [-> | ->]; reflexivity).
  unfold Path.normpath.
  replace (Path.is_nil (root_path sl cs ++ s)) with false
    by (unfold root_path; destruct Hsl as [-> | ->]; reflexivity).
  assert (Hsl' : Path.initial_slashes (root_path sl cs ++ s) = sl).
  { destruct Hs as [[-> ->] | [-> Hne]].
    - unfold root_path. destruct Hsl as [-> | ->]; reflexivity.
    - unfold root_path.
      destruct (join_good_first cs Hne Hcs) as (x & b & -> & Hx).
      unfold Path.initial_slashes, Path.sep.
      destruct Hsl as [-> | ->]; simpl; rewrite Hx; reflexivity. }
  rewrite Hsl'.
  assert (Hcomps :
    fold_left (Path.norm_step sl) (str_split SLASH (root_path sl cs ++ s)) []
    = cs).
  { destruct Hs as [[-> ->] | [-> Hne]].
    - unfold root_path. simpl str_join. rewrite app_nil_r, split_slashes.
      rewrite fold_left_app, norm_steps_empty. reflexivity.
    - rewrite split_app_sep, fold_left_app.
      rewrite split_root by assumption. reflexivity. }
  rewrite Hcomps. fold (root_path sl cs).
  pose proof (root_path_nonempty sl cs Hsl) as Hne.
  destruct (root_path sl cs); [easy | reflexivity].
Qed.

Lemma exclude_root_same_run cwd fs read directory output_file ex1 p ex2 :
  Path.isabs cwd = true -> wf_tree fs = true ->
  abspath cwd (Path.join (abspath cwd directory) p) = abspath cwd directory ->
  aggregate_markdown_files cwd fs read directory output_file (ex1 ++ p :: ex2)
  = aggregate_markdown_files cwd fs read directory output_file (ex1 ++ ex2).
Proof.
  intros Hcwd Hwf Hp.
  destruct (abspath_shape cwd directory Hcwd) as (sl & cs & Hsl & Hcs & ED).
  unfold aggregate_markdown_files, resolve_exclude.
  rewrite !map_app. cbn [map]. rewrite Hp.
  unfold abspath in *. rewrite ED.
  now rewrite (scan_exclude_root cwd sl cs _ _ Hsl Hcs fs output_file Hwf).
Qed.

(** C10.  An entry of the exclusion list that resolves to the root
    directory itself, as [.] does, excludes nothing: directories are pruned
    only below the root, and the run is the same as without that entry. *)
Theorem excluding_root_excludes_nothing cwd fs read directory output_file :
  Path.isabs cwd = true -> wf_tree fs = true ->
  abspath cwd (Path.join (abspath cwd directory) (lit "."))
  = abspath cwd directory
  /\ forall p ex1 ex2,
       abspath cwd (Path.join (abspath cwd directory) p)
       = abspath cwd directory ->
       aggregate_markdown_files cwd fs read directory output_file
                                (ex1 ++ p :: ex2)
       = aggregate_markdown_files cwd fs read directory output_file
                                  (ex1 ++ ex2).
Proof.
  intros Hcwd Hwf. split.
  - destruct (abspath_shape cwd directory Hcwd) as (sl & cs & Hsl & Hcs & ED).
    unfold abspath in *. rewrite ED. now apply resolve_dot.
  - intros p ex1 ex2 Hp. now apply exclude_root_same_run.
Qed.

(** [.] in front of another entry of the exclusion list. *)
Lemma excluding_root_excludes_nothing_witness :
  Path.isabs sample_cwd = true /\ wf_tree sub_tree = true
  /\ abspath sample_cwd (Path.join (abspath sample_cwd (lit ".")) (lit "."))
     = abspath sample_cwd (lit ".")
  /\ sample_run sub_tree [lit "."; lit "nowhere"]
     = sample_run sub_tree [lit "nowhere"].
Proof.
  split; [reflexivity|]. split; [reflexivity|]. split; [reflexivity|].
  apply (proj2 (excluding_root_excludes_nothing
                  sample_cwd sub_tree sample_read (lit ".") (lit "out.md")
                  eq_refl eq_refl) (lit ".") [] [lit "nowhere"]).
  reflexivity.
Defined.

(** ** Sections of a run *)

Lemma make_sections_group_by cwd directory files :
  make_sections cwd directory files
  = group_by (section_key cwd directory) files [].
Proof. reflexivity. Qed.

Lemma sections_get cwd directory files k :
  dict_get k (make_sections cwd directory files)
  = filter (fun f => str_eqb k (section_key cwd directory f)) files.
Proof. rewrite make_sections_group_by. now rewrite group_by_get. Qed.

Lemma sections_keys_nodup cwd directory files :
  NoDup (keys (make_sections cwd directory files)).
Proof.
  rewrite make_sections_group_by. apply group_by_keys_nodup. constructor.
Qed.

Lemma sections_keys_in cwd directory files k :
  In k (keys (make_sections cwd directory files))
  <-> exists f, In f files /\ section_key cwd directory f = k.
Proof.
  rewrite make_sections_group_by, group_by_keys_in. simpl. tauto.
Qed.

(** The key of a listed file is the path of the directory that lists it,
    relative to the root; for the root itself it is the empty string. *)
Lemma section_key_listed cwd fs directory exclude y file :
  Path.isabs cwd = true -> wf_tree fs = true ->
  In y (visited cwd fs directory exclude) -> In file (yield_files y) ->
  section_key cwd (abspath cwd directory) (Path.join (yield_root y) file)
  = if str_eqb (yield_root y) (abspath cwd directory) then []
    else relpath cwd (yield_root y) (abspath cwd directory).
Proof.
  intros Hcwd Hwf Hy Hf.
  destruct (listed_file_path cwd fs directory Hcwd Hwf exclude y file Hy Hf)
    as (sl & cs & ds & Hsl & Hcs & Hds & ED & Hroot & Hjoin & _).
  rewrite Hjoin, Hroot, ED. clear Hjoin Hroot ED.
  pose proof Hds as Hds'. rewrite forallb_app in Hds'.
  apply andb_true_iff in Hds' as [Hds' Hfile]. simpl in Hfile.
  rewrite andb_true_r in Hfile.
  unfold section_key, relpath.
  rewrite !relpath_under by assumption.
  replace (Path.is_nil (ds ++ [file])) with false by (now destruct ds).
  rewrite dirname_joined by assumption.
  destruct ds as [|d ds].
  - now rewrite app_nil_r, str_eqb_refl.
  - replace (str_eqb _ _) with false; [reflexivity|].
    symmetry. apply str_eqb_neq. intros E.
    apply root_path_inj in E; try assumption.
    + apply (f_equal (@length str)) in E. rewrite length_app in E.
      simpl in E. lia.
    + good_names.
Qed.

(** ** No candidate is found twice *)

Lemma distinct_NoDup l : distinct l = true -> NoDup l.
Proof.
  induction l as [|x l IH]; simpl; intros H; constructor.
  - apply andb_true_iff in H as [H _]. apply negb_true_iff in H.
    now apply mem_false.
  - apply IH. now apply andb_true_iff in H as [_ H].
Qed.

Lemma distinct_names_unfold files dirs :
  distinct_names (Dir files dirs) = true ->
  NoDup files /\ NoDup (map fst dirs)
  /\ Forall (fun e => distinct_names (snd e) = true) dirs.
Proof.
  simpl. intros H. apply andb_true_iff in H as [H1 H2].
  apply distinct_NoDup in H1. split; [|split].
  - now apply NoDup_app_remove_r in H1.
  - now apply NoDup_app_remove_l in H1.
  - clear H1. induction dirs as [|[d sub] dirs IH]; constructor.
    + apply andb_true_iff in H2 as [H _]. exact H.
    + apply IH. now apply andb_true_iff in H2 as [_ H].
Qed.

Lemma scan_at_unfold cwd exclude output_file top files dirs :
  scan_at cwd exclude output_file top (Dir files dirs)
  = map (Path.join top)
        (filter (is_candidate cwd exclude output_file top) files)
    ++ flat_map
         (fun e =>
            if mem (fst e) (prune_dirs cwd exclude top (map fst dirs))
            then scan_at cwd exclude output_file
                         (Path.join top (fst e)) (snd e)
            else []) dirs.
Proof.
  unfold scan_at. rewrite walk_unfold. simpl flat_map. f_equal.
  unfold walk_children.
  generalize (prune_dirs cwd exclude top (map fst dirs)) as kept. intros kept.
  induction dirs as [|e dirs' IH]; simpl; [reflexivity|].
  rewrite flat_map_app. f_equal; [|exact IH].
  now destruct (mem (fst e) kept).
Qed.

Section NoDupScan.
Variable cwd : str.
Variable exclude : list str.
Variable output_file : str.
Variable sl : nat.
Hypothesis sl_ok : sl = 1 \/ sl = 2.

Lemma scan_at_shape t bs p :
  wf_tree t = true -> forallb good_name bs = true ->
  In p (scan_at cwd exclude output_file (root_path sl bs) t) ->
  exists ds file,
    forallb good_name (ds ++ [file]) = true
    /\ p = root_path sl (bs ++ ds ++ [file]).
Proof.
  intros Hwf Hbs Hp. unfold scan_at in Hp.
  apply in_flat_map in Hp as ([[root dirs] files] & Hy & Hp).
  destruct (walk_yields cwd exclude sl sl_ok t bs _ Hwf Hbs Hy)
    as (ds & Hds & Hroot & _ & Hfiles & _).
  unfold yield_root, yield_files in *. cbn [fst snd] in *. subst root.
  unfold found_in in Hp. apply in_map_iff in Hp as (file & <- & Hf).
  apply filter_In in Hf as [Hf _].
  assert (Hgf : good_name file = true)
    by (rewrite forallb_forall in Hfiles; now apply Hfiles).
  exists ds, file. split.
  - good_names.
  - rewrite join_root, <- app_assoc; try assumption; [reflexivity|].
    good_names.
Qed.

Lemma scan_at_nodup t : forall bs,
  wf_tree t = true -> distinct_names t = true ->
  forallb good_name bs = true ->
  NoDup (scan_at cwd exclude output_file (root_path sl bs) t).
Proof.
  induction t as [files dirs IH] using tree_induction.
  intros bs Hwf Hdist Hbs.
  pose proof Hwf as Hwf'.
  apply wf_tree_unfold in Hwf' as (Hfiles & Hnames & Hsubs).
  apply distinct_names_unfold in Hdist as (Hnd_files & Hnd_dirs & Hdsubs).
  rewrite scan_at_unfold.
  set (kept := prune_dirs cwd exclude (root_path sl bs) (map fst dirs)).
  assert (Hchild : forall d sub p,
    In (d, sub) dirs ->
    In p (scan_at cwd exclude output_file
                  (Path.join (root_path sl bs) d) sub) ->
    exists ds file,
      forallb good_name (ds ++ [file]) = true
      /\ p = root_path sl (bs ++ d :: ds ++ [file])).
  { intros d sub p He Hp.
    assert (Hgd : good_name d = true).
    { rewrite forallb_forall in Hnames. apply Hnames.
      apply in_map_iff. now exists (d, sub). }
    rewrite join_root in Hp by assumption.
    rewrite Forall_forall in Hsubs.
    apply scan_at_shape in Hp as (ds & file & Hds & ->);
      [| now apply (Hsubs (d, sub)) | now apply root_path_snoc].
    exists ds, file. split; [exact Hds | now rewrite <- app_assoc]. }
  assert (Hinj : forall a b,
    forallb good_name a = true -> forallb good_name b = true ->
    root_path sl (bs ++ a) = root_path sl (bs ++ b) -> a = b).
  { intros a b Ha Hb E. apply root_path_inj in E; try assumption.
    - now apply app_inv_head in E.
    - good_names.
    - good_names. }
  apply NoDup_app.
  - (* the files of this directory *)
    apply NoDup_map_NoDup_ForallPairs; [|now apply NoDup_filter].
    intros f g Hf Hg E.
    apply filter_In in Hf as [Hf _]. apply filter_In in Hg as [Hg _].
    rewrite forallb_forall in Hfiles.
    rewrite !join_root in E by (try assumption; now apply Hfiles).
    apply Hinj in E; simpl; try (rewrite Hfiles by assumption; reflexivity).
    now injection E.
  - (* the sub-directories *)
    clear Hnd_files. clearbody kept.
    induction dirs as [|[d sub] dirs' IHdirs]; simpl; [constructor|].
    inversion Hnd_dirs as [|? ? Hnotin Hnd']; subst.
    inversion Hsubs as [|? ? Hsub Hsubs']; subst.
    inversion Hdsubs as [|? ? Hdsub Hdsubs']; subst.
    inversion IH as [|? ? IHsub IH']; subst.
    simpl in Hnames. apply andb_true_iff in Hnames as [Hgd Hnames'].
    apply NoDup_app.
    + destruct (mem d kept); [|constructor].
      rewrite join_root by assumption.
      apply IHsub; [exact Hsub | exact Hdsub | now apply root_path_snoc].
    + apply IHdirs; try assumption.
      * simpl. rewrite Hfiles, Hnames'. simpl.
        clear - Hsubs'. induction Hsubs' as [|[d' s'] l Hs _ IHl]; simpl;
          [reflexivity|]. simpl in Hs. now rewrite Hs, IHl.
      * intros d' sub' p He. apply Hchild. now right.
    + intros p Hp Hq.
      destruct (mem d kept); [|easy].
      apply (Hchild d sub p (or_introl eq_refl)) in Hp
        as (ds & file & Hds & Ep).
      apply in_flat_map in Hq as ([d' sub'] & He & Hq). cbn [fst snd] in Hq.
      destruct (mem d' kept); [|easy].
      apply (Hchild d' sub' p (or_intror He)) in Hq
        as (ds' & file' & Hds' & Ep').
      rewrite Ep in Ep'. apply Hinj in Ep'.
      * injection Ep' as Ed _. subst d'. apply Hnotin.
        apply in_map_iff. now exists (d, sub').
      * simpl. now rewrite Hgd, Hds.
      * simpl. rewrite Hds', andb_true_r.
        rewrite forallb_forall in Hnames'. apply Hnames'.
        apply in_map_iff. now exists (d', sub').
  - (* a file of this directory is not below a sub-directory *)
    intros p Hp Hq. apply in_map_iff in Hp as (f & <- & Hf).
    apply filter_In in Hf as [Hf _].
    rewrite forallb_forall in Hfiles.
    apply in_flat_map in Hq as ([d sub] & He & Hq). cbn [fst snd] in Hq.
    destruct (mem d kept); [|easy].
    apply (Hchild d sub _ He) in Hq as (ds & file & Hds & Ep).
    rewrite join_root in Ep by (try assumption; now apply Hfiles).
    apply Hinj in Ep.
    + injection Ep as _ Ep. now destruct ds.
    + simpl. now rewrite Hfiles.
    + simpl. rewrite Hds, andb_true_r.
      rewrite forallb_forall in Hnames. apply Hnames.
      apply in_map_iff. now exists (d, sub).
Qed.
End NoDupScan.

Lemma md_files_nodup cwd fs read directory output_file exclude :
  Path.isabs cwd = true -> wf_tree fs = true -> distinct_names fs = true ->
  NoDup (md_files (aggregate_markdown_files
                     cwd fs read directory output_file exclude)).
Proof.
  intros Hcwd Hwf Hdist. rewrite md_files_scan.
  eapply Permutation_NoDup; [symmetry; apply sort_perm|].
  destruct (abspath_shape cwd directory Hcwd) as (sl & cs & Hsl & Hcs & ED).
  unfold abspath. rewrite ED.
  change (scan cwd fs (root_path sl cs) output_file ?ex)
    with (scan_at cwd ex output_file (root_path sl cs) fs).
  rewrite <- (app_nil_r cs) at 2. rewrite app_nil_r.
  now apply scan_at_nodup.
Qed.

(** ** The Writer *)

Lemma flat_map_cons_eq {A B : Type} (g : A -> list B) x l :
  flat_map g (x :: l) = g x ++ flat_map g l.
Proof. reflexivity. Qed.

Lemma reads_app a b : reads (a ++ b) = reads a ++ reads b.
Proof. apply flat_map_app. Qed.

Lemma written_app a b : written (a ++ b) = written a ++ written b.
Proof. apply flat_map_app. Qed.

Lemma in_reads p tr : In p (reads tr) <-> In (Read p) tr.
Proof.
  unfold reads. rewrite in_flat_map. split.
  - intros ([s|q|s] & He & Hp); try easy. destruct Hp as [<-|[]]. exact He.
  - intros H. exists (Read p). split; [exact H | now left].
Qed.

(** *** Sequences that an exception cuts short *)

Lemma aborted_app a b : aborted (a ++ b) = aborted a || aborted b.
Proof. apply existsb_app. Qed.

Lemma and_then_app a b : aborted a = false -> a ;; b = a ++ b.
Proof. unfold and_then. now intros ->. Qed.

Lemma aborted_and_then a b : aborted (a ;; b) = aborted a || aborted b.
Proof.
  unfold and_then. destruct (aborted a) eqn:E; [now rewrite E|].
  now rewrite aborted_app, E.
Qed.

Lemma aborted_for_each {A : Type} (body : A -> list event) l :
  aborted (for_each body l) = existsb (fun x => aborted (body x)) l.
Proof.
  induction l as [|x l IH]; [reflexivity|].
  cbn [for_each existsb]. now rewrite aborted_and_then, IH.
Qed.

Lemma for_each_flat_map {A : Type} (body : A -> list event) l :
  aborted (for_each body l) = false -> for_each body l = flat_map body l.
Proof.
  induction l as [|x l IH]; [reflexivity|].
  cbn [for_each flat_map]. rewrite aborted_and_then. intros H.
  apply orb_false_iff in H as [Hx Hl].
  rewrite and_then_app by exact Hx. now rewrite IH.
Qed.

Lemma existsb_false {A : Type} (f : A -> bool) l :
  existsb f l = false <-> forall x, In x l -> f x = false.
Proof.
  induction l as [|y l IH]; simpl.
  - split; [intros _ x [] | reflexivity].
  - rewrite orb_false_iff, IH. split.
    + intros [Hy Hl] x [<- | Hx]; auto.
    + intros H. split; [apply H; now left | intros x Hx; apply H; now right].
Qed.

Lemma aborted_write s : aborted (write s) = negb (encodable s).
Proof. unfold write. now destruct (encodable s). Qed.

Lemma write_through s : encodable s = true -> write s = [Write s].
Proof. unfold write. now intros ->. Qed.

(** *** What can be encoded *)

Lemma encodable_app a b : encodable (a ++ b) = encodable a && encodable b.
Proof. apply forallb_app. Qed.

Lemma encodable_part (f : str -> str) s :
  (forall c, In c (f s) -> In c s) ->
  encodable s = true -> encodable (f s) = true.
Proof.
  unfold encodable. rewrite !forallb_forall. intros Hsub H c Hc. auto.
Qed.

Lemma decimal_encodable n : encodable (decimal n) = true.
Proof.
  unfold decimal. induction (Nat.to_uint n) as [|d IH|d IH|d IH|d IH|d IH
                                                |d IH|d IH|d IH|d IH|d IH];
    [reflexivity | exact IH ..].
Qed.

Lemma hexadecimal_encodable c : encodable (hexadecimal c) = true.
Proof.
  unfold hexadecimal.
  induction (N.to_hex_uint c) as [|d IH|d IH|d IH|d IH|d IH|d IH|d IH|d IH
                                  |d IH|d IH|d IH|d IH|d IH|d IH|d IH|d IH];
    [reflexivity | exact IH ..].
Qed.

Ltac plain_text :=
  repeat match goal with
         | |- context [encodable (lit ?s)] =>
             change (encodable (lit s)) with true
         | |- context [encodable [NL; NL]] =>
             change (encodable [NL; NL]) with true
         | |- context [encodable separator] =>
             change (encodable separator) with true
         end;
  rewrite ?andb_true_l, ?andb_true_r.

Lemma encode_error_encodable s : encodable (encode_error s) = true.
Proof.
  unfold encode_error. destruct (from_surrogate s) as [|c bad]; [reflexivity|].
  destruct (_ =? 1);
    rewrite !encodable_app, ?decimal_encodable, ?hexadecimal_encodable;
    reflexivity.
Qed.

Lemma file_heading_encodable f :
  encodable (file_heading f) = encodable (Path.basename f).
Proof. unfold file_heading. rewrite !encodable_app. now plain_text. Qed.

Lemma path_line_encodable cwd directory f :
  encodable (path_line cwd directory f) = encodable (relpath cwd f directory).
Proof. unfold path_line. rewrite !encodable_app. now plain_text. Qed.

Lemma error_block_encodable e : encodable (error_block e) = encodable e.
Proof. unfold error_block. rewrite !encodable_app. now plain_text. Qed.

Lemma lstrip_part c s x : In x (lstrip c s) -> In x s.
Proof.
  induction s as [|y s IH]; simpl; [easy|].
  destruct (char_eqb y c); [intros H; right; now apply IH | easy].
Qed.

Lemma dirname_part s x : In x (Path.dirname s) -> In x s.
Proof.
  unfold Path.dirname.
  assert (Hhead : forall y, In y (firstn (Path.rfind1 SLASH s) s) -> In y s).
  { intros y Hy. rewrite <- (firstn_skipn (Path.rfind1 SLASH s) s).
    apply in_or_app. now left. }
  destruct (_ && _); [|apply Hhead].
  unfold rstrip. intros H. apply in_rev in H. apply lstrip_part in H.
  apply in_rev in H. now apply Hhead.
Qed.

Lemma section_heading_encodable k :
  encodable k = true -> encodable (section_heading k) = true.
Proof.
  intros Hk. unfold section_heading. destruct (str_eqb k (lit "."));
    [reflexivity|].
  rewrite !encodable_app. plain_text.
  unfold encodable, replace in *. rewrite forallb_forall in *.
  intros c Hc. apply in_flat_map in Hc as (x & Hx & Hc).
  destruct (char_eqb x SLASH).
  - revert c Hc. apply forallb_forall. reflexivity.
  - destruct Hc as [<- | []]. now apply Hk.
Qed.

(** *** One file, one section, the document *)

Lemma try_content content :
  try_writes [adjust_headings content 3; separator]
             (fun e => write (error_block e))
  = content_block content.
Proof.
  unfold content_block. cbn [try_writes].
  destruct (encodable (adjust_headings content 3)).
  - change (encodable separator) with true. reflexivity.
  - apply write_through. rewrite error_block_encodable.
    apply encode_error_encodable.
Qed.

Lemma write_file_steps cwd read directory f :
  write_file cwd read directory f
  = write (file_heading f) ;;
    write (path_line cwd directory f) ;;
    Read f :: match read f with
              | Content content => content_block content
              | Raises e => write (error_block e)
              end.
Proof.
  unfold write_file. destruct (read f) as [content|e]; [|reflexivity].
  now rewrite <- try_content.
Qed.

Lemma aborted_content_block content : aborted (content_block content) = false.
Proof. unfold content_block. now destruct (encodable _). Qed.

Lemma aborted_file_block cwd read directory f :
  aborted (file_block cwd read directory f) = false.
Proof.
  unfold file_block. rewrite aborted_app. cbn [aborted existsb orb].
  destruct (read f); [apply aborted_content_block | reflexivity].
Qed.

Lemma aborted_write_file cwd read directory f :
  aborted (write_file cwd read directory f)
  = negb (block_encodable cwd read directory f).
Proof.
  rewrite write_file_steps, !aborted_and_then, !aborted_write.
  rewrite file_heading_encodable, path_line_encodable.
  unfold block_encodable.
  change (aborted (Read f :: ?tl)) with (aborted tl).
  destruct (encodable (Path.basename f)); [|reflexivity].
  destruct (encodable (relpath cwd f directory)); [|reflexivity].
  destruct (read f) as [content|e]; cbn [negb orb andb].
  - apply aborted_content_block.
  - now rewrite aborted_write, error_block_encodable.
Qed.

Lemma write_file_through cwd read directory f :
  aborted (write_file cwd read directory f) = false ->
  write_file cwd read directory f = file_block cwd read directory f.
Proof.
  rewrite aborted_write_file. intros H. apply negb_false_iff in H.
  unfold block_encodable in H.
  apply andb_true_iff in H as [H He]. apply andb_true_iff in H as [Hn Hp].
  rewrite write_file_steps.
  rewrite (write_through (file_heading f))
    by now rewrite file_heading_encodable.
  rewrite (write_through (path_line cwd directory f))
    by now rewrite path_line_encodable.
  rewrite !and_then_app by reflexivity. unfold file_block.
  destruct (read f) as [content|e]; [reflexivity|].
  now rewrite write_through by now rewrite error_block_encodable.
Qed.

Lemma write_section_title_heading k :
  write_section_title k = write (section_heading k).
Proof.
  unfold write_section_title, section_heading.
  now destruct (str_eqb k (lit ".")).
Qed.

Lemma aborted_write_section cwd read directory d k :
  aborted (write_section cwd read directory d k)
  = negb (encodable (section_heading k))
    || existsb (fun f => negb (block_encodable cwd read directory f))
               (dict_get k d).
Proof.
  unfold write_section.
  rewrite aborted_and_then, write_section_title_heading, aborted_write.
  rewrite aborted_for_each. f_equal.
  induction (dict_get k d) as [|f l IH]; [reflexivity|].
  cbn [existsb]. now rewrite aborted_write_file, IH.
Qed.

Lemma write_section_through cwd read directory d k :
  aborted (write_section cwd read directory d k) = false ->
  write_section cwd read directory d k
  = section_block cwd read directory d k.
Proof.
  unfold write_section. rewrite aborted_and_then. intros H.
  apply orb_false_iff in H as [Ht Hf].
  rewrite and_then_app by exact Ht.
  rewrite write_section_title_heading in *.
  rewrite aborted_write in Ht. apply negb_false_iff in Ht.
  rewrite (write_through _ Ht), (for_each_flat_map _ _ Hf).
  unfold section_block. cbn [app]. f_equal.
  apply flat_map_ext_on. intros f Hin. apply write_file_through.
  rewrite aborted_for_each in Hf.
  exact (proj1 (existsb_false _ _) Hf f Hin).
Qed.

Lemma write_document_through cwd read directory output_file d :
  aborted (write_document cwd read directory output_file d) = false ->
  write_document cwd read directory output_file d
  = whole_trace cwd read directory output_file d (sort (keys d)).
Proof.
  unfold write_document. rewrite !aborted_and_then. intros H.
  apply orb_false_iff in H as [_ H]. apply orb_false_iff in H as [Ho Hs].
  rewrite aborted_write in Ho. apply negb_false_iff in Ho.
  rewrite (write_through _ Ho), (write_through (lit _ ++ _)) by reflexivity.
  rewrite !and_then_app by reflexivity.
  rewrite (for_each_flat_map _ _ Hs). unfold whole_trace, preamble.
  cbn [app]. do 2 f_equal.
  apply flat_map_ext_on. intros k Hin. apply write_section_through.
  rewrite aborted_for_each in Hs.
  exact (proj1 (existsb_false _ _) Hs k Hin).
Qed.

(** *** A run that is not cut short *)

Lemma run_through cwd fs read directory output_file exclude :
  let run :=
    aggregate_markdown_files cwd fs read directory output_file exclude in
  aborted (trace run) = false ->
  trace run
  = whole_trace cwd read (abspath cwd directory) output_file (sections run)
                (sort (keys (sections run)))
  /\ reported_files run = Some (length (md_files run))
  /\ reported_sections run = Some (length (keys (sections run))).
Proof.
  intros run H. split; [now apply write_document_through|].
  unfold run, aggregate_markdown_files, render in *.
  cbn [trace reported_files reported_sections md_files sections] in *.
  rewrite H. unfold keys. now rewrite length_map.
Qed.

Lemma run_completes cwd fs read directory output_file exclude :
  let run :=
    aggregate_markdown_files cwd fs read directory output_file exclude in
  all_encodable cwd read (abspath cwd directory) output_file (md_files run)
  = true ->
  aborted (trace run) = false.
Proof.
  intros run H. unfold all_encodable in H.
  apply andb_true_iff in H as [Ho Hf]. rewrite forallb_forall in Hf.
  set (d := abspath cwd directory) in *.
  change (trace run)
    with (write_document cwd read d output_file (sections run)).
  unfold write_document. rewrite !aborted_and_then, !aborted_write.
  rewrite !encodable_app. plain_text. rewrite Ho. cbn [negb orb].
  rewrite aborted_for_each. apply existsb_false. intros k Hk.
  apply (proj1 (in_sort _ _)) in Hk.
  change (sections run) with (make_sections cwd d (md_files run)) in *.
  rewrite aborted_write_section. apply orb_false_iff. split.
  - apply sections_keys_in in Hk as (f & Hin & <-).
    apply negb_false_iff, section_heading_encodable.
    specialize (Hf f Hin). unfold block_encodable in Hf.
    apply andb_true_iff in Hf as [Hf _]. apply andb_true_iff in Hf as [_ Hp].
    unfold section_key. revert Hp. apply encodable_part, dirname_part.
  - apply existsb_false. intros f Hin. rewrite sections_get in Hin.
    apply filter_In in Hin as [Hin _]. now rewrite (Hf f Hin).
Qed.

(** *** What is read *)

Lemma reads_content_block content : reads (content_block content) = [].
Proof. unfold content_block. now destruct (encodable _). Qed.

Lemma reads_file_block cwd read directory f :
  reads (file_block cwd read directory f) = [f].
Proof.
  unfold file_block. rewrite reads_app. cbn [reads flat_map app].
  destruct (read f); [now rewrite reads_content_block | reflexivity].
Qed.

Lemma reads_files cwd read directory files :
  reads (flat_map (file_block cwd read directory) files) = files.
Proof.
  induction files as [|f files IH]; [reflexivity|].
  rewrite flat_map_cons_eq, reads_app, reads_file_block, IH. reflexivity.
Qed.

Lemma reads_section cwd read directory d k :
  reads (section_block cwd read directory d k) = dict_get k d.
Proof.
  unfold section_block.
  change (reads (Write ?s :: ?tl)) with (reads tl). apply reads_files.
Qed.

Lemma reads_whole_trace cwd read directory output_file d ks :
  reads (whole_trace cwd read directory output_file d ks)
  = flat_map (fun k => dict_get k d) ks.
Proof.
  unfold whole_trace. rewrite reads_app.
  change (reads (preamble output_file)) with (@nil str). rewrite app_nil_l.
  induction ks as [|k ks IH]; [reflexivity|].
  rewrite !flat_map_cons_eq. now rewrite reads_app, reads_section, IH.
Qed.

(** The sections partition the files. *)
Lemma partition_perm (key : str -> str) files : forall ks,
  NoDup ks -> (forall f, In f files -> In (key f) ks) ->
  Permutation
    (flat_map (fun k => filter (fun f => str_eqb k (key f)) files) ks)
    files.
Proof.
  induction files as [|f files IH]; intros ks Hnd Hin.
  - clear Hnd Hin. simpl. induction ks; [reflexivity | exact IHks].
  - destruct (in_split (key f) ks (Hin f (or_introl eq_refl)))
      as (ks1 & ks2 & ->).
    apply NoDup_remove_2 in Hnd as Hnot.
    specialize (IH (ks1 ++ key f :: ks2) Hnd
                   (fun g Hg => Hin g (or_intror Hg))).
    rewrite flat_map_app in *. simpl flat_map in *.
    rewrite str_eqb_refl.
    assert (Hskip : forall l, ~ In (key f) l ->
      flat_map (fun k => filter (fun g => str_eqb k (key g)) (f :: files)) l
      = flat_map (fun k => filter (fun g => str_eqb k (key g)) files) l).
    { intros l Hl. apply flat_map_ext_on. intros k Hk. simpl.
      replace (str_eqb k (key f)) with false; [reflexivity|].
      symmetry. apply str_eqb_neq. intros ->. contradiction. }
    rewrite !Hskip by (intros H; apply Hnot, in_or_app; auto).
    simpl app. etransitivity; [symmetry; apply Permutation_middle|].
    now constructor.
Qed.

(** The files of the sections, in the order of the sorted keys, are the
    candidates. *)
Lemma sections_enumerate cwd directory files :
  Permutation
    (flat_map (fun k => dict_get k (make_sections cwd directory files))
              (sort (keys (make_sections cwd directory files))))
    files.
Proof.
  erewrite flat_map_ext; [|intros k; apply sections_get].
  apply partition_perm.
  - apply (Permutation_NoDup
             (l := keys (make_sections cwd directory files)));
      [symmetry; apply sort_perm | apply sections_keys_nodup].
  - intros f Hf. apply in_sort. apply sections_keys_in. now exists f.
Qed.

Lemma reads_run cwd fs read directory output_file exclude :
  let run :=
    aggregate_markdown_files cwd fs read directory output_file exclude in
  aborted (trace run) = false ->
  Permutation (reads (trace run)) (md_files run).
Proof.
  intros run H. unfold run in *.
  destruct (run_through cwd fs read directory output_file exclude H)
    as [-> _].
  rewrite reads_whole_trace. apply sections_enumerate.
Qed.

(** Every candidate has its block in the trace. *)
Lemma file_block_in_trace cwd fs read directory output_file exclude f :
  let run :=
    aggregate_markdown_files cwd fs read directory output_file exclude in
  aborted (trace run) = false ->
  In f (md_files run) ->
  exists pre post,
    trace run = pre ++ file_block cwd read (abspath cwd directory) f ++ post.
Proof.
  intros run H. unfold run in *.
  destruct (run_through cwd fs read directory output_file exclude H)
    as [-> _].
  unfold aggregate_markdown_files, render.
  cbn [trace md_files sections].
  set (files := sort _). set (d := abspath cwd directory). intros Hf.
  set (k := section_key cwd d f).
  assert (Hk : In k (sort (keys (make_sections cwd d files)))).
  { apply in_sort, sections_keys_in. now exists f. }
  assert (Hfk : In f (dict_get k (make_sections cwd d files))).
  { rewrite sections_get. apply filter_In. split; [exact Hf|].
    apply str_eqb_refl. }
  apply in_split in Hk as (ks1 & ks2 & Eks).
  apply in_split in Hfk as (l1 & l2 & El).
  unfold whole_trace. rewrite Eks, flat_map_app, flat_map_cons_eq.
  unfold section_block at 2. rewrite El, flat_map_app, flat_map_cons_eq.
  exists (preamble output_file
          ++ flat_map (section_block cwd read d (make_sections cwd d files))
                      ks1
          ++ Write (section_heading k)
             :: flat_map (file_block cwd read d) l1),
    (flat_map (file_block cwd read d) l2
     ++ flat_map (section_block cwd read d (make_sections cwd d files)) ks2).
  rewrite <- !app_assoc. cbn [app]. now rewrite <- !app_assoc.
Qed.

Lemma file_block_once cwd fs read directory output_file exclude f :
  Path.isabs cwd = true -> wf_tree fs = true -> distinct_names fs = true ->
  let run :=
    aggregate_markdown_files cwd fs read directory output_file exclude in
  aborted (trace run) = false ->
  In f (md_files run) ->
  exists pre post,
    trace run = pre ++ file_block cwd read (abspath cwd directory) f ++ post
    /\ ~ In (Read f) pre /\ ~ In (Read f) post.
Proof.
  intros Hcwd Hwf Hdist run H Hf.
  destruct (file_block_in_trace cwd fs read directory output_file exclude f
                                H Hf)
    as (pre & post & E).
  exists pre, post. split; [exact E|].
  pose proof (md_files_nodup cwd fs read directory output_file exclude
                             Hcwd Hwf Hdist) as Hnd.
  apply (Permutation_NoDup
           (Permutation_sym
              (reads_run cwd fs read directory output_file exclude H)))
    in Hnd.
  unfold run in *. rewrite E, !reads_app, reads_file_block in Hnd.
  apply NoDup_remove_2 in Hnd. rewrite <- !in_reads.
  split; intros Hin; apply Hnd, in_or_app; auto.
Qed.

(** *** A read is never the first event of a block *)

Lemma for_each_in {A : Type} (body : A -> list event) l e :
  In e (for_each body l) ->
  exists pre x post,
    In x l /\ In e (body x) /\ for_each body l = pre ++ body x ++ post.
Proof.
  induction l as [|x l IH]; [easy|].
  cbn [for_each]. unfold and_then. destruct (aborted (body x)).
  - intros He. exists [], x, []. rewrite app_nil_r.
    repeat split; [now left | exact He].
  - intros He. apply in_app_or in He as [He | He].
    + exists [], x, (for_each body l). repeat split; [now left | exact He].
    + destruct (IH He) as (pre & y & post & Hy & Hin & E).
      exists (body x ++ pre), y, post. rewrite E, <- app_assoc.
      repeat split; [now right | exact Hin].
Qed.

Lemma no_read_in_write g s : ~ In (Read g) (write s).
Proof.
  unfold write. destruct (encodable s); intros [H | []]; discriminate H.
Qed.

Lemma read_in_write_file cwd read directory f g :
  In (Read g) (write_file cwd read directory f) ->
  g = f
  /\ exists post,
       write_file cwd read directory f
       = [Write (file_heading f); Write (path_line cwd directory f); Read f]
         ++ post.
Proof.
  rewrite write_file_steps. intros H.
  destruct (aborted (write (file_heading f))) eqn:E1.
  { unfold and_then in H. rewrite E1 in H. now apply no_read_in_write in H. }
  rewrite (and_then_app _ _ E1) in *.
  destruct (aborted (write (path_line cwd directory f))) eqn:E2.
  { unfold and_then in H. rewrite E2 in H.
    apply in_app_or in H as [H | H]; now apply no_read_in_write in H. }
  rewrite (and_then_app _ _ E2) in *.
  rewrite aborted_write in E1, E2. apply negb_false_iff in E1, E2.
  rewrite (write_through _ E1), (write_through _ E2) in *. cbn [app] in *.
  destruct H as [H | [H | [H | H]]]; try discriminate H.
  - injection H as <-. split; [reflexivity|]. eexists. reflexivity.
  - exfalso. destruct (read f) as [content|e].
    + apply in_reads in H. now rewrite reads_content_block in H.
    + now apply no_read_in_write in H.
Qed.

Lemma read_in_section cwd read directory d k g :
  In (Read g) (write_section cwd read directory d k) ->
  exists pre post,
    write_section cwd read directory d k
    = pre ++ [Write (file_heading g); Write (path_line cwd directory g);
              Read g] ++ post.
Proof.
  unfold write_section. rewrite write_section_title_heading.
  intros H. destruct (aborted (write (section_heading k))) eqn:E.
  { unfold and_then in H. rewrite E in H. now apply no_read_in_write in H. }
  rewrite (and_then_app _ _ E) in *.
  apply in_app_or in H as [H | H]; [now apply no_read_in_write in H|].
  apply for_each_in in H as (pre & f & post & _ & H & ->).
  apply read_in_write_file in H as (-> & post' & ->).
  exists (write (section_heading k) ++ pre), (post' ++ post).
  now rewrite <- !app_assoc.
Qed.

Lemma read_in_trace cwd fs read directory output_file exclude g :
  let run :=
    aggregate_markdown_files cwd fs read directory output_file exclude in
  let d := abspath cwd directory in
  In (Read g) (trace run) ->
  exists pre post,
    trace run
    = pre ++ [Write (file_heading g); Write (path_line cwd d g); Read g]
          ++ post.
Proof.
  intros run d.
  change (trace run)
    with (write_document cwd read d output_file (sections run)).
  unfold write_document. set (w1 := write _). set (w2 := write _).
  intros H. destruct (aborted w1) eqn:E1.
  { unfold and_then in H. rewrite E1 in H. now apply no_read_in_write in H. }
  rewrite (and_then_app w1 _ E1) in *.
  apply in_app_or in H as [H | H]; [now apply no_read_in_write in H|].
  destruct (aborted w2) eqn:E2.
  { unfold and_then in H. rewrite E2 in H. now apply no_read_in_write in H. }
  rewrite (and_then_app w2 _ E2) in *.
  apply in_app_or in H as [H | H]; [now apply no_read_in_write in H|].
  apply for_each_in in H as (pre1 & k & post1 & _ & H & ->).
  apply read_in_section in H as (pre2 & post2 & ->).
  exists (w1 ++ w2 ++ pre1 ++ pre2), (post2 ++ post1).
  now rewrite <- !app_assoc.
Qed.

(** ** A file that cannot be read *)

(** The claim as C3 states it fails where a name cannot be encoded: the
    read of [x.md] raises and gets its placeholder, and the heading of the
    next candidate ends the run, which reads it never and prints nothing. *)
Lemma read_error_then_abort :
  let run := sample_run odd_tree [] in
  let f := lit "/r/x.md" in
  let g := lit "/r/" ++ odd_name in
  In f (md_files run) /\ In g (md_files run)
  /\ sample_read f
     = Raises (lit "[Errno 13] Permission denied: '/r/x.md'")
  /\ aborted (trace run) = true
  /\ ~ In (Read g) (trace run)
  /\ ~ Permutation (reads (trace run)) (md_files run)
  /\ reported_files run = None.
Proof.
  intros run f g.
  split; [now left|]. split; [right; now left|]. split; [reflexivity|].
  split; [reflexivity|]. split; [|split; [|reflexivity]].
  - intros H. apply in_reads in H. destruct H as [H | []]. discriminate H.
  - intros H. apply Permutation_length in H. discriminate H.
Qed.

(** C3.  In a run all of whose names and error messages can be encoded, a
    candidate whose read raises an error gets exactly one block in the
    output: its heading, its path line and the placeholder with the error
    message, ended by the separator that also ends the block of a file that
    was read.  The writing is not cut short: the trace of the run is the
    two lines at the head and then the blocks of all the sections, and
    every candidate is read exactly once. *)
Theorem read_error_placeholder cwd fs read directory output_file exclude f e :
  Path.isabs cwd = true -> wf_tree fs = true -> distinct_names fs = true ->
  let run :=
    aggregate_markdown_files cwd fs read directory output_file exclude in
  let d := abspath cwd directory in
  all_encodable cwd read d output_file (md_files run) = true ->
  In f (md_files run) -> read f = Raises e ->
  aborted (trace run) = false
  /\ trace run
     = whole_trace cwd read d output_file (sections run)
                   (sort (keys (sections run)))
  /\ file_block cwd read d f
     = [Write (file_heading f); Write (path_line cwd d f); Read f;
        Write (error_block e)]
  /\ (exists pre post,
        trace run = pre ++ file_block cwd read d f ++ post
        /\ ~ In (Read f) pre /\ ~ In (Read f) post)
  /\ error_block e = lit "**Error reading file: " ++ e ++ lit "**" ++ separator
  /\ (forall g c, read g = Content c ->
        encodable (adjust_headings c 3) = true ->
        file_block cwd read d g
        = [Write (file_heading g); Write (path_line cwd d g); Read g;
           Write (adjust_headings c 3); Write separator])
  /\ Permutation (reads (trace run)) (md_files run).
Proof.
  intros Hcwd Hwf Hdist run d Henc Hf He.
  pose proof (run_completes cwd fs read directory output_file exclude Henc)
    as Hok.
  destruct (run_through cwd fs read directory output_file exclude Hok)
    as (Htrace & _).
  split; [exact Hok|]. split; [exact Htrace|].
  split; [unfold file_block; now rewrite He|].
  split; [now apply file_block_once|]. split; [reflexivity|].
  split; [|now apply reads_run].
  intros g c Hg Hc. unfold file_block, content_block. now rewrite Hg, Hc.
Qed.

(** A tree with two files whose read raises an error. *)
Lemma read_error_placeholder_witness :
  let run := sample_run skip_tree [] in
  let d := abspath sample_cwd (lit ".") in
  let f := lit "/r/skip/y.md" in
  let e := lit "[Errno 13] Permission denied: '/r/skip/y.md'" in
  Path.isabs sample_cwd = true /\ wf_tree skip_tree = true
  /\ distinct_names skip_tree = true
  /\ all_encodable sample_cwd sample_read d (lit "out.md") (md_files run)
     = true
  /\ In f (md_files run) /\ sample_read f = Raises e
  /\ aborted (trace run) = false
  /\ trace run
     = whole_trace sample_cwd sample_read d (lit "out.md") (sections run)
                   (sort (keys (sections run)))
  /\ file_block sample_cwd sample_read d f
     = [Write (file_heading f); Write (path_line sample_cwd d f); Read f;
        Write (error_block e)]
  /\ (exists pre post,
        trace run = pre ++ file_block sample_cwd sample_read d f ++ post
        /\ ~ In (Read f) pre /\ ~ In (Read f) post)
  /\ error_block e = lit "**Error reading file: " ++ e ++ lit "**" ++ separator
  /\ (forall g c, sample_read g = Content c ->
        encodable (adjust_headings c 3) = true ->
        file_block sample_cwd sample_read d g
        = [Write (file_heading g); Write (path_line sample_cwd d g); Read g;
           Write (adjust_headings c 3); Write separator])
  /\ Permutation (reads (trace run)) (md_files run).
Proof.
  intros run d f e.
  split; [reflexivity|]. split; [reflexivity|]. split; [reflexivity|].
  split; [reflexivity|]. split; [now left|]. split; [reflexivity|].
  apply (read_error_placeholder
           sample_cwd skip_tree sample_read (lit ".") (lit "out.md") [] f e);
    try reflexivity. now left.
Defined.

(** ** The heading and the path of a file come before its read *)

(** The claim as C9 states it fails for a candidate whose name cannot be
    encoded: the write of its heading raises the error, so neither the
    heading nor the path line is in the output, and the file is not read. *)
Lemma odd_name_gets_no_heading :
  let run := sample_run odd_tree [] in
  let d := abspath sample_cwd (lit ".") in
  let g := lit "/r/" ++ odd_name in
  In g (md_files run)
  /\ ~ In (Write (file_heading g)) (trace run)
  /\ ~ In (Write (path_line sample_cwd d g)) (trace run)
  /\ ~ In (Read g) (trace run).
Proof.
  intros run d g. split; [right; now left|].
  repeat split; intros H; vm_compute in H;
    repeat (destruct H as [H | H]; [discriminate H|]); exact H.
Qed.

(** C9.  Whenever a file is read, its sub-heading and the line with its
    path were written just before.  In a run all of whose names and error
    messages can be encoded this happens for every candidate, exactly once,
    so both lines are in the output also when the read fails and the
    placeholder follows. *)
Theorem heading_and_path_before_read
        cwd fs read directory output_file exclude f :
  Path.isabs cwd = true -> wf_tree fs = true -> distinct_names fs = true ->
  let run :=
    aggregate_markdown_files cwd fs read directory output_file exclude in
  let d := abspath cwd directory in
  all_encodable cwd read d output_file (md_files run) = true ->
  In f (md_files run) ->
  (forall g, In (Read g) (trace run) ->
     exists pre post,
       trace run
       = pre ++ [Write (file_heading g); Write (path_line cwd d g); Read g]
             ++ post)
  /\ exists pre post,
       trace run
       = pre ++ [Write (file_heading f); Write (path_line cwd d f); Read f]
             ++ post
       /\ ~ In (Read f) pre /\ ~ In (Read f) post
       /\ (forall e, read f = Raises e ->
                     exists post', post = Write (error_block e) :: post')
       /\ document run
          = written pre ++ file_heading f ++ path_line cwd d f
            ++ written post.
Proof.
  intros Hcwd Hwf Hdist run d Henc Hf.
  split; [intros g; apply read_in_trace|].
  pose proof (run_completes cwd fs read directory output_file exclude Henc)
    as Hok.
  destruct (file_block_once cwd fs read directory output_file exclude f
                            Hcwd Hwf Hdist Hok Hf)
    as (pre & post & E & Hpre & Hpost).
  fold run d in E. unfold file_block in E. rewrite <- app_assoc in E.
  exists pre. eexists. split; [exact E|]. split; [exact Hpre|].
  split; [|split].
  - intros H. apply in_app_or in H as [H | H]; [|now apply Hpost].
    apply in_reads in H.
    destruct (read f); [now rewrite reads_content_block in H | easy].
  - intros e He. rewrite He. eexists. reflexivity.
  - unfold document. rewrite E, !written_app.
    replace (written [Write (file_heading f); Write (path_line cwd d f);
                      Read f])
      with (file_heading f ++ path_line cwd d f)
      by (unfold written; cbn [flat_map]; now rewrite !app_nil_r).
    now rewrite <- !app_assoc.
Qed.

(** The file in [skip] of the sample tree, whose read raises an error. *)
Lemma heading_and_path_before_read_witness :
  let run := sample_run skip_tree [] in
  let d := abspath sample_cwd (lit ".") in
  let f := lit "/r/skip/y.md" in
  Path.isabs sample_cwd = true /\ wf_tree skip_tree = true
  /\ distinct_names skip_tree = true
  /\ all_encodable sample_cwd sample_read d (lit "out.md") (md_files run)
     = true
  /\ In f (md_files run)
  /\ (forall g, In (Read g) (trace run) ->
        exists pre post,
          trace run
          = pre ++ [Write (file_heading g); Write (path_line sample_cwd d g);
                    Read g] ++ post)
  /\ exists pre post,
       trace run
       = pre ++ [Write (file_heading f); Write (path_line sample_cwd d f);
                 Read f] ++ post
       /\ ~ In (Read f) pre /\ ~ In (Read f) post
       /\ (forall e, sample_read f = Raises e ->
                     exists post', post = Write (error_block e) :: post')
       /\ document run
          = written pre ++ file_heading f ++ path_line sample_cwd d f
            ++ written post.
Proof.
  intros run d f.
  split; [reflexivity|]. split; [reflexivity|]. split; [reflexivity|].
  split; [reflexivity|]. split; [now left|].
  apply (heading_and_path_before_read
           sample_cwd skip_tree sample_read (lit ".") (lit "out.md") [] f);
    try reflexivity. now left.
Defined.

(** ** The Grouper on a run *)

Lemma count_occ_filter_nodup (P : str -> bool) l f :
  NoDup l -> In f l ->
  count_occ str_eq_dec (filter P l) f = if P f then 1 else 0.
Proof.
  intros Hnd Hin.
  assert (Hc : count_occ str_eq_dec l f = 1)
    by (apply NoDup_count_occ'; assumption).
  clear Hnd Hin. revert Hc.
  induction l as [|x l IH]; simpl; [discriminate|].
  destruct (str_eq_dec x f) as [->|Hne]; intros Hc.
  - injection Hc as Hc. apply (count_occ_not_In str_eq_dec) in Hc.
    assert (Hz : count_occ str_eq_dec (filter P l) f = 0).
    { apply count_occ_not_In. intros H. apply filter_In in H as [H _].
      contradiction. }
    destruct (P f); simpl; [|exact Hz].
    destruct (str_eq_dec f f); [now rewrite Hz | contradiction].
  - destruct (P x); simpl; [|now apply IH].
    destruct (str_eq_dec x f); [contradiction | now apply IH].
Qed.

Lemma dirname_root sl bs n :
  sl = 1 \/ sl = 2 ->
  forallb good_name bs = true -> good_name n = true ->
  Path.dirname (root_path sl (bs ++ [n])) = root_path sl bs.
Proof.
  intros Hsl Hbs Hn. apply good_name_parts in Hn as (_ & Hns & _).
  unfold root_path, Path.dirname. destruct bs as [|c cs].
  - cbn [app str_join]. rewrite app_nil_r.
    destruct Hsl as [-> | ->]; cbn [repeat app].
    + change (SLASH :: n) with ([] ++ SLASH :: n).
      rewrite rfind1_last_slash by exact Hns. reflexivity.
    + change (SLASH :: SLASH :: n) with ([SLASH] ++ SLASH :: n).
      rewrite rfind1_last_slash by exact Hns. reflexivity.
  - rewrite str_join_snoc by discriminate.
    destruct (join_good_last (c :: cs)) as (a & z & E & Hz);
      [discriminate | exact Hbs |].
    rewrite E. unfold Path.sep. cbn [app]. rewrite !app_assoc.
    rewrite <- (app_assoc _ [z]).
    change ([z] ++ SLASH :: n) with (([z] ++ [SLASH]) ++ n).
    rewrite !app_assoc.
    rewrite <- (app_assoc ((repeat SLASH sl ++ a) ++ [z]) [SLASH] n).
    cbn [app].
    rewrite rfind1_last_slash, firstn_through_slash by exact Hns.
    rewrite not_all_slashes by exact Hz.
    replace (Path.is_nil _) with false
      by (destruct (repeat SLASH sl ++ a); reflexivity).
    simpl. now apply rstrip_slash_after.
Qed.

(** What the traversal finds is a normalised path below the scanned
    directory, and its key is the path of the directory that holds it, from
    the scanned directory down. *)
Lemma found_shape cwd fs directory output_file exclude f :
  Path.isabs cwd = true -> wf_tree fs = true ->
  In f (scan cwd fs (abspath cwd directory) output_file
             (resolve_exclude cwd (abspath cwd directory) exclude)) ->
  exists sl cs ds file,
    (sl = 1 \/ sl = 2)
    /\ forallb good_name cs = true
    /\ forallb good_name ds = true /\ good_name file = true
    /\ abspath cwd directory = root_path sl cs
    /\ f = root_path sl (cs ++ ds ++ [file])
    /\ relpath cwd f (abspath cwd directory)
       = str_join Path.sep (ds ++ [file])
    /\ section_key cwd (abspath cwd directory) f = str_join Path.sep ds.
Proof.
  intros Hcwd Hwf Hf.
  apply (proj1 (in_scan _ _ _ _ _ _)) in Hf
    as (y & file & Hy & Hfile & _ & ->).
  destruct (listed_file_path cwd fs directory Hcwd Hwf exclude y file Hy Hfile)
    as (sl & cs & ds & Hsl & Hcs & Hds & ED & _ & Hjoin & _).
  exists sl, cs, ds, file.
  pose proof Hds as Hds'. rewrite forallb_app in Hds'.
  apply andb_true_iff in Hds' as [Hds' Hfile']. simpl in Hfile'.
  rewrite andb_true_r in Hfile'.
  assert (Hrel : relpath cwd (Path.join (yield_root y) file)
                         (abspath cwd directory)
                 = str_join Path.sep (ds ++ [file])).
  { rewrite Hjoin, ED. unfold relpath. rewrite relpath_under by assumption.
    now destruct ds. }
  repeat split; try assumption.
  unfold section_key. rewrite Hrel. now apply dirname_joined.
Qed.

(** C6.  Every file that the traversal finds is a candidate of the run and
    is in exactly one section: it occurs once in the section of its key and
    in no other, and the sections hold nothing but what the traversal
    found.  For a file in a sub-directory the key is the path of its parent
    directory relative to the root; for a file in the root itself the key
    is the empty string, where the parent directory relative to the root is
    [.]. *)
Theorem every_candidate_in_one_section
        cwd fs read directory output_file exclude :
  Path.isabs cwd = true -> wf_tree fs = true -> distinct_names fs = true ->
  let run :=
    aggregate_markdown_files cwd fs read directory output_file exclude in
  let d := abspath cwd directory in
  let found :=
    scan cwd fs d output_file (resolve_exclude cwd d exclude) in
  NoDup (keys (sections run))
  /\ (forall k g, In g (dict_get k (sections run)) -> In g found)
  /\ forall f, In f found ->
       In f (md_files run)
       /\ In (section_key cwd d f) (keys (sections run))
       /\ (forall k,
             count_occ str_eq_dec (dict_get k (sections run)) f
             = if str_eqb k (section_key cwd d f) then 1 else 0)
       /\ if str_eqb (Path.dirname f) d
          then section_key cwd d f = []
               /\ relpath cwd (Path.dirname f) d = lit "."
          else section_key cwd d f = relpath cwd (Path.dirname f) d.
Proof.
  intros Hcwd Hwf Hdist run d found.
  assert (Hsec : sections run = make_sections cwd d (md_files run))
    by reflexivity.
  assert (Hmd : forall g, In g (md_files run) <-> In g found).
  { intros g. unfold run. rewrite md_files_scan. apply in_sort. }
  rewrite Hsec. split; [apply sections_keys_nodup|]. split.
  { intros k g Hg. rewrite sections_get in Hg. apply filter_In in Hg as [Hg _].
    now apply Hmd. }
  intros f Hf. pose proof (proj2 (Hmd f) Hf) as Hin.
  split; [exact Hin|]. split; [apply sections_keys_in; now exists f|].
  split.
  { intros k. rewrite sections_get.
    apply (count_occ_filter_nodup
             (fun g => str_eqb k (section_key cwd d g))); [|exact Hin].
    now apply md_files_nodup. }
  destruct (found_shape cwd fs directory output_file exclude f Hcwd Hwf Hf)
    as (sl & cs & ds & file & Hsl & Hcs & Hds & Hfile & ED & -> & _ & Ekey).
  fold d in ED, Ekey. rewrite Ekey, ED.
  assert (Hall : forallb good_name (cs ++ ds) = true) by good_names.
  rewrite app_assoc, dirname_root by assumption.
  unfold relpath. rewrite relpath_under by assumption.
  destruct ds as [|d1 ds].
  - rewrite app_nil_r, str_eqb_refl. now split.
  - replace (str_eqb _ _) with false; [reflexivity|].
    symmetry. apply str_eqb_neq. intros E.
    apply root_path_inj in E; try assumption.
    apply (f_equal (@length str)) in E. rewrite length_app in E.
    simpl in E. lia.
Qed.

(** The first scenario of the specification: [a.md] in the root has the
    empty key, [sub/b.md] the key [sub]. *)
Lemma every_candidate_in_one_section_witness :
  let run := sample_run sub_tree [] in
  let d := abspath sample_cwd (lit ".") in
  let found :=
    scan sample_cwd sub_tree d (lit "out.md")
         (resolve_exclude sample_cwd d []) in
  Path.isabs sample_cwd = true /\ wf_tree sub_tree = true
  /\ distinct_names sub_tree = true
  /\ found = [lit "/r/a.md"; lit "/r/sub/b.md"]
  /\ NoDup (keys (sections run))
  /\ (forall k g, In g (dict_get k (sections run)) -> In g found)
  /\ forall f, In f found ->
       In f (md_files run)
       /\ In (section_key sample_cwd d f) (keys (sections run))
       /\ (forall k,
             count_occ str_eq_dec (dict_get k (sections run)) f
             = if str_eqb k (section_key sample_cwd d f) then 1 else 0)
       /\ if str_eqb (Path.dirname f) d
          then section_key sample_cwd d f = []
               /\ relpath sample_cwd (Path.dirname f) d = lit "."
          else section_key sample_cwd d f
               = relpath sample_cwd (Path.dirname f) d.
Proof.
  intros run d found.
  split; [reflexivity|]. split; [reflexivity|]. split; [reflexivity|].
  split; [reflexivity|].
  apply (every_candidate_in_one_section
           sample_cwd sub_tree sample_read (lit ".") (lit "out.md") []);
    reflexivity.
Defined.

(** ** The order of the output *)

Lemma render_perm cwd read directory output_file found found' :
  Permutation found found' ->
  render cwd read directory output_file found
  = render cwd read directory output_file found'.
Proof.
  intros Hp. unfold render. now rewrite (sort_unique found found' Hp).
Qed.

Lemma mem_perm x l l' : Permutation l l' -> mem x l = mem x l'.
Proof.
  intros Hp. destruct (mem x l') eqn:E.
  - apply mem_In. apply mem_In in E.
    eapply Permutation_in; [symmetry; exact Hp | exact E].
  - apply mem_false. apply mem_false in E. intros H. apply E.
    eapply Permutation_in; [exact Hp | exact H].
Qed.

Lemma filter_perm {A : Type} (f : A -> bool) l l' :
  Permutation l l' -> Permutation (filter f l) (filter f l').
Proof.
  induction 1 as [|x l l' _ IH|x y l|l1 l2 l3 _ IH1 _ IH2]; simpl.
  - reflexivity.
  - destruct (f x); [now constructor | exact IH].
  - destruct (f x), (f y); try reflexivity. apply perm_swap.
  - now transitivity (filter f l2).
Qed.

Lemma scan_at_children cwd exclude output_file top files dirs :
  scan_at cwd exclude output_file top (Dir files dirs)
  = map (Path.join top)
        (filter (is_candidate cwd exclude output_file top) files)
    ++ flat_map (scan_child cwd exclude output_file top
                   (prune_dirs cwd exclude top (map fst dirs))) dirs.
Proof. apply scan_at_unfold. Qed.

Lemma scan_child_kept cwd exclude output_file top names names' e :
  Permutation names names' ->
  scan_child cwd exclude output_file top
             (prune_dirs cwd exclude top names) e
  = scan_child cwd exclude output_file top
               (prune_dirs cwd exclude top names') e.
Proof.
  intros Hp. unfold scan_child, prune_dirs.
  now rewrite (mem_perm (fst e) _ _ (filter_perm _ _ _ Hp)).
Qed.

Lemma same_listing_scan cwd exclude output_file :
  (forall t t', same_listing t t' ->
     forall top,
       Permutation (scan_at cwd exclude output_file top t)
                   (scan_at cwd exclude output_file top t'))
  /\ (forall l l', same_dirs l l' ->
        Permutation (map fst l) (map fst l')
        /\ forall top kept,
             Permutation
               (flat_map (scan_child cwd exclude output_file top kept) l)
               (flat_map (scan_child cwd exclude output_file top kept) l')).
Proof.
  apply same_listing_mutind.
  - intros files files' dirs dirs' Hfiles _ [Hnames Hdirs] top.
    rewrite !scan_at_children. apply Permutation_app.
    + apply Permutation_map. now apply filter_perm.
    + rewrite (flat_map_ext _ _
                 (fun e => scan_child_kept cwd exclude output_file top
                             _ _ e (Permutation_sym Hnames))).
      apply Hdirs.
  - now split.
  - intros d t t' l l' _ Ht _ [Hn Hl]. split.
    + simpl. now constructor.
    + intros top kept. rewrite !flat_map_cons_eq. apply Permutation_app.
      * unfold scan_child. cbn [fst snd].
        destruct (mem d kept); [apply Ht | reflexivity].
      * apply Hl.
  - intros e1 e2 l. split.
    + simpl. apply perm_swap.
    + intros top kept. rewrite !flat_map_cons_eq.
      apply Permutation_app_swap_app.
  - intros l1 l2 l3 _ [Hn1 H1] _ [Hn2 H2]. split.
    + now transitivity (map fst l2).
    + intros top kept.
      now transitivity
            (flat_map (scan_child cwd exclude output_file top kept) l2).
Qed.

Lemma same_listing_run cwd read directory output_file exclude fs fs' :
  same_listing fs fs' ->
  aggregate_markdown_files cwd fs read directory output_file exclude
  = aggregate_markdown_files cwd fs' read directory output_file exclude.
Proof.
  intros Hs. unfold aggregate_markdown_files. apply render_perm.
  apply (proj1 (same_listing_scan cwd _ output_file) fs fs' Hs).
Qed.

Lemma filter_sorted (f : str -> bool) l :
  StronglySorted str_le l -> StronglySorted str_le (filter f l).
Proof.
  induction 1 as [|x l Hs IH Hx]; simpl; [constructor|].
  destruct (f x); [|exact IH]. constructor; [exact IH|].
  rewrite Forall_forall in *. intros y Hy. apply filter_In in Hy as [Hy _].
  now apply Hx.
Qed.

(** C7.  The order of the output is a function of the set of candidate
    paths: the candidate list is what the traversal found, sorted ascending
    by path; every section holds the candidates of its key in that order;
    the sections are written in ascending order of their keys, and in a run
    that no encoding error cuts short the files are read in exactly that
    order; runs on two listings of the same file system state, which
    enumerate the entries in different orders, give the same outcome. *)
Theorem output_order_deterministic
        cwd read directory output_file exclude fs fs' :
  same_listing fs fs' ->
  let o :=
    aggregate_markdown_files cwd fs read directory output_file exclude in
  let o' :=
    aggregate_markdown_files cwd fs' read directory output_file exclude in
  let d := abspath cwd directory in
  let found := scan cwd fs d output_file (resolve_exclude cwd d exclude) in
  o = o'
  /\ StronglySorted str_le (md_files o)
  /\ Permutation (md_files o) found
  /\ (forall k,
        dict_get k (sections o)
        = filter (fun f => str_eqb k (section_key cwd d f)) (md_files o))
  /\ (forall k, In k (keys (sections o))
                <-> exists f, In f (md_files o) /\ section_key cwd d f = k)
  /\ (exists ks,
        StronglySorted str_le ks /\ Permutation ks (keys (sections o))
        /\ trace o
           = write (lit "# Aggregated Markdown Documentation" ++ [NL; NL]) ;;
             write (lit "*Generated on: " ++ Path.basename output_file
                    ++ lit "*" ++ [NL; NL]) ;;
             for_each (write_section cwd read d (sections o)) ks
        /\ (aborted (trace o) = false ->
            trace o = whole_trace cwd read d output_file (sections o) ks
            /\ reads (trace o)
               = flat_map (fun k => dict_get k (sections o)) ks))
  /\ (forall k, StronglySorted str_le (dict_get k (sections o)))
  /\ (forall found1 found2,
        Permutation found1 found2 ->
        render cwd read d output_file found1
        = render cwd read d output_file found2).
Proof.
  intros Hs o o' d found.
  assert (Hsec : sections o = make_sections cwd d (md_files o))
    by reflexivity.
  split; [now apply same_listing_run|].
  split; [apply sort_sorted|].
  split; [unfold o; rewrite md_files_scan; apply sort_perm|].
  split; [intros k; rewrite Hsec; apply sections_get|].
  split; [intros k; rewrite Hsec; apply sections_keys_in|].
  split; [|split].
  - exists (sort (keys (sections o))). split; [apply sort_sorted|].
    split; [apply sort_perm|]. split; [reflexivity|].
    intros Hok.
    destruct (run_through cwd fs read directory output_file exclude Hok)
      as [E _].
    fold o d in E. split; [exact E|]. rewrite E. apply reads_whole_trace.
  - intros k. rewrite Hsec, sections_get. apply filter_sorted, sort_sorted.
  - intros found1 found2. apply render_perm.
Qed.

(** Two listings of one tree, with [docs] excluded. *)
Lemma output_order_deterministic_witness :
  let o := sample_run listing_one [lit "docs"] in
  let o' := sample_run listing_two [lit "docs"] in
  let d := abspath sample_cwd (lit ".") in
  let found :=
    scan sample_cwd listing_one d (lit "out.md")
         (resolve_exclude sample_cwd d [lit "docs"]) in
  same_listing listing_one listing_two
  /\ o = o'
  /\ StronglySorted str_le (md_files o)
  /\ Permutation (md_files o) found
  /\ (forall k,
        dict_get k (sections o)
        = filter (fun f => str_eqb k (section_key sample_cwd d f))
                 (md_files o))
  /\ (forall k, In k (keys (sections o))
                <-> exists f, In f (md_files o)
                              /\ section_key sample_cwd d f = k)
  /\ (exists ks,
        StronglySorted str_le ks /\ Permutation ks (keys (sections o))
        /\ trace o
           = write (lit "# Aggregated Markdown Documentation" ++ [NL; NL]) ;;
             write (lit "*Generated on: " ++ Path.basename (lit "out.md")
                    ++ lit "*" ++ [NL; NL]) ;;
             for_each (write_section sample_cwd sample_read d (sections o))
                      ks
        /\ (aborted (trace o) = false ->
            trace o
            = whole_trace sample_cwd sample_read d (lit "out.md")
                          (sections o) ks
            /\ reads (trace o)
               = flat_map (fun k => dict_get k (sections o)) ks))
  /\ (forall k, StronglySorted str_le (dict_get k (sections o)))
  /\ (forall found1 found2,
        Permutation found1 found2 ->
        render sample_cwd sample_read d (lit "out.md") found1
        = render sample_cwd sample_read d (lit "out.md") found2).
Proof.
  intros o o' d found.
  assert (Hs : same_listing listing_one listing_two).
  { constructor; [apply perm_swap | apply same_swap]. }
  split; [exact Hs|].
  apply (output_order_deterministic
           sample_cwd sample_read (lit ".") (lit "out.md") [lit "docs"]
           listing_one listing_two Hs).
Defined.

(** ** The section of the files in the root *)

(** C1 at the run of the specification's first scenario ([a.md] in the
    root, [b.md] in [sub]): the section of the root files has the empty
    string as its key, not [.], and its heading is [## ] with nothing after
    it, not [## Root Files]. *)
Theorem root_files_section_sample :
  let run := sample_run sub_tree [] in
  keys (sections run) = [[]; lit "sub"]
  /\ dict_get [] (sections run) = [lit "/r/a.md"]
  /\ write_section_title [] = [Write (lit "## " ++ [NL; NL])]
  /\ document run
     = lit "# Aggregated Markdown Documentation" ++ [NL; NL]
       ++ lit "*Generated on: out.md*" ++ [NL; NL]
       ++ lit "## " ++ [NL; NL]
       ++ lit "### File: a.md" ++ [NL; NL]
       ++ lit "*Path: a.md*" ++ [NL; NL]
       ++ lit "#### Title" ++ [NL; NL] ++ lit "---" ++ [NL; NL]
       ++ lit "## sub" ++ [NL; NL]
       ++ lit "### File: b.md" ++ [NL; NL]
       ++ lit "*Path: sub/b.md*" ++ [NL; NL]
       ++ lit "##### Sub" ++ [NL; NL] ++ lit "---" ++ [NL; NL].
Proof. repeat split; reflexivity. Qed.

(** The same for every run: a file listed in the root has the empty
    section key, so the branch that writes [## Root Files] is not taken for
    it. *)
Lemma root_file_section_key cwd fs directory exclude y file :
  Path.isabs cwd = true -> wf_tree fs = true ->
  In y (visited cwd fs directory exclude) -> In file (yield_files y) ->
  yield_root y = abspath cwd directory ->
  section_key cwd (abspath cwd directory) (Path.join (yield_root y) file) = []
  /\ write_section_title [] = [Write (lit "## " ++ [NL; NL])].
Proof.
  intros Hcwd Hwf Hy Hf Hroot. split; [|reflexivity].
  rewrite (section_key_listed cwd fs directory exclude y file Hcwd Hwf Hy Hf).
  now rewrite Hroot, str_eqb_refl.
Qed.
